(** * Terraform command cards: catalog, filter-and-sort engine, grouped
    renderer and card affordances

    A shallow embedding of [src/app.py]: the Python list [TOPICS] and the
    JavaScript of the page template ([refresh], [buildCards],
    [copyToClipboard] and the toggle handler).

    Modelling conventions.
    - A JavaScript string is a [string] of bytes.  The catalog is plain
      ASCII, so one byte is one UTF-16 code unit there.  [trim] strips the
      ASCII members of ECMAScript's WhiteSpace and LineTerminator classes
      and [toLowerCase] maps [A-Z] to [a-z]; both are exact on ASCII text.
    - A Topic is a JSON object.  Fields the script guards with [||], [&&]
      or [?:] are [option]s ([None] is an absent key); truthiness of a
      string is non-emptiness, of a number being non-zero.
    - A score is an integer ([Z]); [(b.score||0)-(a.score||0)] is then
      exact subtraction.
    - [Array.prototype.sort] is stable (ECMAScript 2019 and later).  For a
      comparator that is a total preorder the stable arrangement is unique,
      so the built-in is modelled by a stable insertion sort.
    - The DOM is the list of children of [#cards]; of every element only
      the text and the state the handlers read or write is kept. *)

From Stdlib Require Import ZArith Ascii.
From stdpp Require Import base list sorting strings gmap pretty.

Open Scope Z_scope.

(** ** JavaScript string primitives *)

Module JsString.

Definition nl : string := String (ascii_of_nat 10) EmptyString.
Definition dq : string := String (ascii_of_nat 34) EmptyString.

(** Truthiness of a string value: only the empty string is falsy. *)
Definition truthy (s : string) : bool :=
  match s with EmptyString => false | String _ _ => true end.

(** TAB, LF, VT, FF, CR and SPACE. *)
Definition isWhiteSpace (c : ascii) : bool :=
  let n := nat_of_ascii c in
  ((9 <=? n)%nat && (n <=? 13)%nat) || (n =? 32)%nat.

Fixpoint trimStart (s : string) : string :=
  match s with
  | EmptyString => EmptyString
  | String c s' => if isWhiteSpace c then trimStart s' else s
  end.

(** [trimEnd] drops a character when it is white space and everything
    after it has been dropped. *)
Fixpoint trimEnd (s : string) : string :=
  match s with
  | EmptyString => EmptyString
  | String c s' =>
      match trimEnd s' with
      | EmptyString => if isWhiteSpace c then EmptyString
                       else String c EmptyString
      | r => String c r
      end
  end.

Definition trim (s : string) : string := trimEnd (trimStart s).

Definition lowerChar (c : ascii) : ascii :=
  let n := nat_of_ascii c in
  if (65 <=? n)%nat && (n <=? 90)%nat then ascii_of_nat (n + 32) else c.

Fixpoint toLowerCase (s : string) : string :=
  match s with
  | EmptyString => EmptyString
  | String c s' => String (lowerChar c) (toLowerCase s')
  end.

(** [startsWith s p]: [p] is a prefix of [s]. *)
Fixpoint startsWith (s p : string) {struct p} : bool :=
  match p, s with
  | EmptyString, _ => true
  | String _ _, EmptyString => false
  | String b p', String a s' =>
      if Ascii.eqb a b then startsWith s' p' else false
  end.

(** [String.prototype.includes]: [p] occurs somewhere in [s]. *)
Fixpoint includes (s p : string) : bool :=
  startsWith s p ||
  match s with
  | EmptyString => false
  | String _ s' => includes s' p
  end.

(** A string made of white space only (the empty string included). *)
Fixpoint blank (s : string) : bool :=
  match s with
  | EmptyString => true
  | String c s' => isWhiteSpace c && blank s'
  end.

End JsString.

Import JsString.

(** ** The catalog *)

(** One entry of [TOPICS].  The page script reads [title] unguarded; every
    other key is read through a guard or a default. *)
Record Topic := mkTopic {
  id : string;
  title : string;
  desc : option string;
  cmd : option string;
  example : option string;
  tf_link : option string;
  category : option string;
  score : option Z
}.

(** The shape of every dict literal of [TOPICS]: the seven keys [id],
    [title], [desc], [cmd], [example], [tf_link] and [category], and no
    [score] key. *)
Definition topic (i t d c e l g : string) : Topic :=
  {| id := i; title := t; desc := Some d; cmd := Some c; example := Some e;
     tf_link := Some l; category := Some g; score := None |}.

Definition TOPICS : list Topic :=
  [
    topic "init" "terraform init"
      "Initialize a new or existing Terraform working directory: downloads providers, initializes backends and modules."
      "terraform init"
      ("terraform init" +:+ nl +:+ "# Reconfigure backend" +:+ nl +:+ "terraform init -reconfigure -backend-config=" +:+ dq +:+ "bucket=my-bucket" +:+ dq)
      "https://developer.hashicorp.com/terraform/cli/commands/init"
      "Basic Terraform Commands";
    topic "plan" "terraform plan"
      "Generate and show an execution plan (what Terraform will change)."
      "terraform plan -out=plan.tfplan"
      ("terraform plan -out=plan.tfplan" +:+ nl +:+ "terraform plan -detailed-exitcode")
      "https://developer.hashicorp.com/terraform/cli/commands/plan"
      "Basic Terraform Commands";
    topic "apply" "terraform apply"
      "Build or change infrastructure as described by the plan or configuration."
      "terraform apply plan.tfplan"
      ("terraform apply plan.tfplan" +:+ nl +:+ "# non-interactive" +:+ nl +:+ "terraform apply -auto-approve")
      "https://developer.hashicorp.com/terraform/cli/commands/apply"
      "Basic Terraform Commands";
    topic "destroy" "terraform destroy"
      "Destroy Terraform-managed infrastructure for the current configuration."
      "terraform destroy"
      ("terraform destroy -auto-approve" +:+ nl +:+ "# target a single resource" +:+ nl +:+ "terraform destroy -target=aws_instance.example")
      "https://developer.hashicorp.com/terraform/cli/commands/destroy"
      "Basic Terraform Commands";
    topic "fmt" "terraform fmt"
      "Format Terraform configuration files to canonical HCL style."
      "terraform fmt -recursive"
      "terraform fmt -check -recursive"
      "https://developer.hashicorp.com/terraform/cli/commands/fmt"
      "Basic Terraform Commands";
    topic "validate" "terraform validate"
      "Validate configuration syntax and basic semantic rules without contacting remote systems."
      "terraform validate"
      ("terraform validate" +:+ nl +:+ "terraform validate -json > validate.json")
      "https://developer.hashicorp.com/terraform/cli/commands/validate"
      "Basic Terraform Commands";
    topic "output" "terraform output"
      "Read outputs from the state or a saved plan; supports machine-readable JSON."
      "terraform output instance_ip"
      "terraform output -json > outputs.json"
      "https://developer.hashicorp.com/terraform/cli/commands/output"
      "Basic Terraform Commands";
    topic "show" "terraform show"
      "Produce human-readable or JSON representation of state or plan files."
      "terraform show plan.tfplan"
      "terraform show -json plan.tfplan > plan.json"
      "https://developer.hashicorp.com/terraform/cli/commands/show"
      "Basic Terraform Commands";
    topic "version" "terraform version"
      "Display the Terraform and plugin versions in use."
      "terraform version"
      "terraform version"
      "https://developer.hashicorp.com/terraform/cli/commands/version"
      "Basic Terraform Commands";
    topic "providers" "terraform providers"
      "List providers required by the configuration and show provider dependency graph."
      "terraform providers"
      ("terraform providers" +:+ nl +:+ "terraform providers | sed -n '1,50p'")
      "https://developer.hashicorp.com/terraform/cli/commands/providers"
      "Basic Terraform Commands";
    topic "state_list" "terraform state list"
      "List all resources recorded in the Terraform state."
      "terraform state list"
      "terraform state list"
      "https://developer.hashicorp.com/terraform/cli/state"
      "Terraform State Management";
    topic "state_show" "terraform state show"
      "Show attributes for a single resource from the state."
      "terraform state show aws_instance.example"
      "terraform state show module.db.aws_db_instance.example"
      "https://developer.hashicorp.com/terraform/cli/state"
      "Terraform State Management";
    topic "state_pull" "terraform state pull"
      "Download current state from the backend as JSON to stdout."
      "terraform state pull"
      "terraform state pull > terraform.tfstate"
      "https://developer.hashicorp.com/terraform/cli/state"
      "Terraform State Management";
    topic "state_push" "terraform state push"
      "Upload a local state file to the remote backend (advanced/rare; use with caution)."
      "terraform state push terraform.tfstate"
      "terraform state push terraform.tfstate"
      "https://developer.hashicorp.com/terraform/cli/state"
      "Terraform State Management";
    topic "state_rm" "terraform state rm"
      "Remove a resource from the state without modifying real infrastructure."
      "terraform state rm aws_instance.example"
      "terraform state rm module.old.aws_instance.example"
      "https://developer.hashicorp.com/terraform/cli/state"
      "Terraform State Management";
    topic "state_mv" "terraform state mv"
      "Move resources within the state (rename or move between modules)."
      "terraform state mv 'aws_instance.old[0]' 'aws_instance.new[0]'"
      "terraform state mv module.old.aws_instance.example module.new.aws_instance.example"
      "https://developer.hashicorp.com/terraform/cli/state"
      "Terraform State Management";
    topic "state_replace_provider" "terraform state replace-provider"
      "Replace provider references in the state when changing provider addresses."
      "terraform state replace-provider registry.terraform.io/hashicorp/aws registry.terraform.io/custom/myaws"
      "terraform state replace-provider old_provider new_provider"
      "https://developer.hashicorp.com/terraform/cli/state"
      "Terraform State Management";
    topic "refresh" "terraform refresh"
      "Update local state to match real-world infrastructure (deprecated; plan/refresh flags preferred)."
      "terraform refresh"
      ("terraform refresh" +:+ nl +:+ "# or use plan with -refresh=true/false")
      "https://developer.hashicorp.com/terraform/cli/commands/plan"
      "Terraform State Management";
    topic "workspace_list" "terraform workspace list"
      "List all named workspaces for the current configuration."
      "terraform workspace list"
      "terraform workspace list"
      "https://developer.hashicorp.com/terraform/cli/commands/workspace"
      "Terraform Workspaces";
    topic "workspace_new" "terraform workspace new"
      "Create a new named workspace (separate state instance)."
      "terraform workspace new dev"
      "terraform workspace new staging"
      "https://developer.hashicorp.com/terraform/cli/commands/workspace"
      "Terraform Workspaces";
    topic "workspace_select" "terraform workspace select"
      "Switch to an existing workspace to use its state."
      "terraform workspace select prod"
      "terraform workspace select staging"
      "https://developer.hashicorp.com/terraform/cli/commands/workspace"
      "Terraform Workspaces";
    topic "workspace_delete" "terraform workspace delete"
      "Delete a workspace and its state (use with caution)."
      "terraform workspace delete old-env"
      "terraform workspace delete staging"
      "https://developer.hashicorp.com/terraform/cli/commands/workspace"
      "Terraform Workspaces";
    topic "workspace_show" "terraform workspace show"
      "Display the current workspace name."
      "terraform workspace show"
      "terraform workspace show"
      "https://developer.hashicorp.com/terraform/cli/commands/workspace"
      "Terraform Workspaces";
    topic "import_resource" "terraform import"
      "Import existing infrastructure into Terraform state; update configuration afterwards to match resource attributes."
      "terraform import aws_instance.web i-0123456789abcdef0"
      "terraform import module.db.aws_db_instance.example rds-123456"
      "https://developer.hashicorp.com/terraform/cli/commands/import"
      "Terraform Import";
    topic "graph" "terraform graph"
      "Output dependency graph in DOT format; pipe to Graphviz to render images."
      "terraform graph | dot -Tpng > graph.png"
      "terraform graph | dot -Tsvg > graph.svg"
      "https://developer.hashicorp.com/terraform/cli/commands/graph"
      "Graph & Visualization";
    topic "apply_auto_approve" "terraform apply -auto-approve"
      "Apply without interactive confirmation (use with caution in automation)."
      "terraform apply -auto-approve"
      "terraform apply -auto-approve"
      "https://developer.hashicorp.com/terraform/cli/commands/apply"
      "Plan & Apply Options";
    topic "apply_var" "terraform apply -var"
      "Pass a single variable override on the CLI during apply."
      "terraform apply -var='key=value'"
      "terraform apply -var='region=eu-west-1' -auto-approve"
      "https://developer.hashicorp.com/terraform/language/values/variables#passing-values-on-the-command-line"
      "Plan & Apply Options";
    topic "apply_target" "terraform apply -target"
      "Apply changes targeting a specific resource (advanced; use carefully)."
      "terraform apply -target=aws_instance.example"
      "terraform apply -target=module.db.aws_db_instance.example"
      "https://developer.hashicorp.com/terraform/cli/commands/apply"
      "Plan & Apply Options";
    topic "apply_planfile" "terraform apply <plan_file>"
      "Apply a previously saved plan file to perform the planned changes."
      "terraform apply plan.tfplan"
      ("terraform plan -out=plan.tfplan" +:+ nl +:+ "terraform apply plan.tfplan")
      "https://developer.hashicorp.com/terraform/cli/commands/apply"
      "Plan & Apply Options";
    topic "plan_out" "terraform plan -out"
      "Save the execution plan to a file for later application or inspection."
      "terraform plan -out=plan.tfplan"
      ("terraform plan -out=ci.plan" +:+ nl +:+ "terraform show -json ci.plan > ci-plan.json")
      "https://developer.hashicorp.com/terraform/cli/commands/plan"
      "Plan & Apply Options";
    topic "plan_var" "terraform plan -var"
      "Provide a one-off variable override on the CLI when generating a plan."
      "terraform plan -var='key=value'"
      "terraform plan -var='env=staging' -out=plan.tfplan"
      "https://developer.hashicorp.com/terraform/language/values/variables#passing-values-on-the-command-line"
      "Plan & Apply Options";
    topic "plan_target" "terraform plan -target"
      "Generate a plan targeting specific resources to limit change scope."
      "terraform plan -target=aws_instance.example"
      "terraform plan -target=module.db -out=target-plan.tfplan"
      "https://developer.hashicorp.com/terraform/cli/commands/plan"
      "Plan & Apply Options";
    topic "plan_destroy" "terraform plan -destroy"
      "Show a plan that would destroy all resources managed by the configuration."
      "terraform plan -destroy"
      "terraform plan -destroy -out=destroy.tfplan"
      "https://developer.hashicorp.com/terraform/cli/commands/plan"
      "Plan & Apply Options";
    topic "plan_refresh_false" "terraform plan -refresh=false"
      "Skip refreshing the state from real infrastructure when generating the plan (faster but may be stale)."
      "terraform plan -refresh=false"
      "terraform plan -refresh=false -out=plan.tfplan"
      "https://developer.hashicorp.com/terraform/cli/commands/plan"
      "Plan & Apply Options";
    topic "apply_refresh_only" "terraform apply -refresh-only"
      "Update the state to match real infrastructure without changing any resources."
      "terraform apply -refresh-only"
      "terraform apply -refresh-only -auto-approve"
      "https://developer.hashicorp.com/terraform/cli/commands/apply"
      "Plan & Apply Options";
    topic "apply_var_file" "terraform apply -var-file=<file.tfvars>"
      "Load variables from a .tfvars file during apply to provide consistent input values."
      "terraform apply -var-file=prod.tfvars"
      "terraform apply -var-file=prod.tfvars -auto-approve"
      "https://developer.hashicorp.com/terraform/language/values/variables#variable-definitions-tfvars-files"
      "Variable Management (explicit cards per request)";
    topic "plan_var_file" "terraform plan -var-file=<file.tfvars>"
      "Create a plan using variables sourced from a .tfvars file."
      "terraform plan -var-file=prod.tfvars -out=plan.tfplan"
      "terraform plan -var-file=staging.tfvars -out=plan.tfplan"
      "https://developer.hashicorp.com/terraform/cli/commands/plan"
      "Variable Management (explicit cards per request)";
    topic "apply_var_cli" ("terraform apply -var=" +:+ dq +:+ "key=value" +:+ dq)
      "Apply with an immediate single variable override from the CLI."
      "terraform apply -var='image=ami-12345' -auto-approve"
      "terraform apply -var='region=eu-west-1' -auto-approve"
      "https://developer.hashicorp.com/terraform/language/values/variables#passing-values-on-the-command-line"
      "Variable Management (explicit cards per request)";
    topic "plan_var_cli" ("terraform plan -var=" +:+ dq +:+ "key=value" +:+ dq)
      "Plan using a single CLI-provided variable override."
      "terraform plan -var='image=ami-12345' -out=plan.tfplan"
      "terraform plan -var='env=dev' -out=plan.tfplan"
      "https://developer.hashicorp.com/terraform/language/values/variables#passing-values-on-the-command-line"
      "Variable Management (explicit cards per request)";
    topic "apply_lock_false" "terraform apply -lock=false"
      "Disable state locking for this apply (dangerous for remote backends; use cautiously)."
      "terraform apply -lock=false -auto-approve"
      "terraform apply -lock=false -auto-approve"
      "https://developer.hashicorp.com/terraform/cli/commands/apply"
      "Variable Management (explicit cards per request)";
    topic "plan_input_false" "terraform plan -input=false"
      "Run plan non-interactively by disabling prompts for missing input; useful in CI."
      "terraform plan -input=false -var-file=ci.tfvars"
      "terraform plan -input=false -var-file=secrets.tfvars -out=plan.tfplan"
      "https://developer.hashicorp.com/terraform/cli/commands/plan"
      "Variable Management (explicit cards per request)";
    topic "taint_cmd" "terraform taint <resource>"
      "Mark a resource in the state to be recreated on the next apply."
      "terraform taint aws_instance.example"
      "terraform taint aws_instance.old"
      "https://developer.hashicorp.com/terraform/cli/commands/taint"
      "Resource Taint & Untaint";
    topic "untaint_cmd" "terraform untaint <resource>"
      "Remove a taint mark so the resource will not be recreated."
      "terraform untaint aws_instance.example"
      "terraform untaint aws_instance.old"
      "https://developer.hashicorp.com/terraform/cli/commands/taint"
      "Resource Taint & Untaint";
    topic "remote_config" "terraform remote config"
      "Configure remote state storage (legacy command in older versions; use backend blocks with init)."
      "terraform remote config"
      ("# Prefer backend block + terraform init" +:+ nl +:+ "terraform init -backend-config=" +:+ dq +:+ "bucket=my-bucket" +:+ dq)
      "https://developer.hashicorp.com/terraform/language/state/overview"
      "Remote State Management";
    topic "backend_config" "terraform init -backend-config"
      "Specify backend configuration values at init time or reconfigure existing backend."
      "terraform init -backend-config=backend.tf"
      ("terraform init -backend-config=" +:+ dq +:+ "bucket=my-bucket" +:+ dq +:+ " -reconfigure")
      "https://developer.hashicorp.com/terraform/language/state/overview"
      "Remote State Management";
    topic "state_push_remote" "terraform state push (remote)"
      "Upload a local state file to the configured backend (advanced; be cautious)."
      "terraform state push terraform.tfstate"
      "terraform state push terraform.tfstate"
      "https://developer.hashicorp.com/terraform/cli/state"
      "Remote State Management";
    topic "state_pull_remote" "terraform state pull (remote)"
      "Download current remote state from the backend."
      "terraform state pull > current.tfstate"
      "terraform state pull > backup-2025-10-22.tfstate"
      "https://developer.hashicorp.com/terraform/cli/state"
      "Remote State Management";
    topic "providers_schema" "terraform providers schema"
      "Show provider schema to inspect resource and data source attributes (JSON output available)."
      "terraform providers schema -json"
      "terraform providers schema -json > providers-schema.json"
      "https://developer.hashicorp.com/terraform/cli/commands/providers"
      "Provider Management";
    topic "providers_lock" "terraform providers lock"
      "Generate a dependency lock file for providers to ensure reproducible installs."
      "terraform providers lock -platform=linux_amd64"
      "terraform providers lock -platform=linux_amd64"
      "https://developer.hashicorp.com/terraform/cli/commands/providers"
      "Provider Management";
    topic "providers_mirror" "terraform providers mirror"
      "Mirror provider plugins to a directory for air-gapped installs."
      "terraform providers mirror ./vendor"
      "terraform providers mirror ./vendor"
      "https://developer.hashicorp.com/terraform/cli/commands/providers"
      "Provider Management";
    topic "providers_install" "terraform providers install"
      "Install providers locally (used by some workflows)."
      "terraform providers install"
      "terraform init && terraform providers install"
      "https://developer.hashicorp.com/terraform/cli/commands/providers"
      "Provider Management";
    topic "init_upgrade" "terraform init -upgrade"
      "Upgrade provider plugins to the newest allowed versions during init."
      "terraform init -upgrade"
      "terraform init -upgrade"
      "https://developer.hashicorp.com/terraform/cli/commands/init"
      "Provider Management";
    topic "force_unlock" "terraform force-unlock <lock-id>"
      "Manually remove a stale lock on the state using the lock ID (use carefully)."
      "terraform force-unlock LOCK_ID"
      "terraform force-unlock 1234-abcd-5678"
      "https://developer.hashicorp.com/terraform/cli/commands/force-unlock"
      "Locking and Unlocking";
    topic "apply_lock_timeout" "terraform apply -lock-timeout"
      "Specify how long to wait when acquiring a state lock before failing."
      "terraform apply -lock-timeout=5m -auto-approve"
      "terraform apply -lock-timeout=2m -auto-approve"
      "https://developer.hashicorp.com/terraform/cli/commands/apply"
      "Locking and Unlocking";
    topic "state_push_file" "terraform state push <file>"
      "Push a local state file to the remote backend (advanced restore or migration step)."
      "terraform state push backup.tfstate"
      "terraform state push backup.tfstate"
      "https://developer.hashicorp.com/terraform/cli/state"
      "State Manipulation & Backups";
    topic "state_pull_file" "terraform state pull > file.tfstate"
      "Pull the current state and save it locally for backup or inspection."
      "terraform state pull > backup.tfstate"
      "terraform state pull > backup-2025-10-22.tfstate"
      "https://developer.hashicorp.com/terraform/cli/state"
      "State Manipulation & Backups";
    topic "state_backup_restore" "State snapshot & restore"
      "Create snapshots of state and restore from backups when needed."
      "terraform state pull > snapshot.tfstate"
      ("terraform state pull > snapshot.tfstate" +:+ nl +:+ "# restore: terraform state push snapshot.tfstate")
      "https://developer.hashicorp.com/terraform/cli/state"
      "State Manipulation & Backups";
    topic "tf_log_debug" "TF_LOG=DEBUG"
      "Enable debug-level logging to troubleshoot provider or plugin behavior."
      "TF_LOG=DEBUG TF_LOG_PATH=./tf.log terraform plan"
      "TF_LOG=DEBUG TF_LOG_PATH=./tf.log terraform apply"
      "https://developer.hashicorp.com/terraform/cli/commands/log"
      "Debugging & Logging";
    topic "tf_log_info" "TF_LOG=INFO"
      "Enable info-level logging for less verbose runtime logs."
      "TF_LOG=INFO terraform plan"
      "TF_LOG=INFO terraform plan"
      "https://developer.hashicorp.com/terraform/cli/commands/log"
      "Debugging & Logging";
    topic "tf_log_path" "TF_LOG_PATH"
      "Redirect Terraform logs to a file with TF_LOG_PATH."
      "TF_LOG_PATH=./tf.log terraform apply"
      "TF_LOG=DEBUG TF_LOG_PATH=./tf.log terraform plan"
      "https://developer.hashicorp.com/terraform/cli/commands/log"
      "Debugging & Logging";
    topic "validate_json" "terraform validate -json"
      "Produce machine-readable JSON validation output for tooling and CI."
      "terraform validate -json"
      "terraform validate -json > validate.json"
      "https://developer.hashicorp.com/terraform/cli/commands/validate"
      "Debugging & Logging";
    topic "console" "terraform console"
      "Interactive REPL to evaluate expressions against configuration and state."
      "terraform console"
      ("terraform console" +:+ nl +:+ "> var.count" +:+ nl +:+ "> module.vpc.subnet_ids")
      "https://developer.hashicorp.com/terraform/cli/commands/console"
      "Debugging & Logging";
    topic "providers_schema_json" "terraform providers schema -json"
      "Output provider schema in JSON to inspect resource/data attributes programmatically."
      "terraform providers schema -json > schema.json"
      "terraform providers schema -json > providers-schema.json"
      "https://developer.hashicorp.com/terraform/cli/commands/providers"
      "Debugging & Logging";
    topic "apply_replace" "terraform apply -replace"
      "Force replacement of a specific resource during apply (selective recreate)."
      "terraform apply -replace='aws_instance.example' -auto-approve"
      "terraform apply -replace=aws_instance.example -auto-approve"
      "https://developer.hashicorp.com/terraform/cli/commands/apply"
      "Experimental Commands";
    topic "plan_refresh_false_exp" "terraform plan -refresh=false (experimental)"
      "Skip refresh before planning to speed up CI; may operate on stale data."
      "terraform plan -refresh=false"
      "terraform plan -refresh=false -out=plan.tfplan"
      "https://developer.hashicorp.com/terraform/cli/commands/plan"
      "Experimental Commands";
    topic "destroy_target" "terraform destroy -target"
      "Destroy a specific resource by targeting it (advanced; use with caution)."
      "terraform destroy -target=aws_instance.example -auto-approve"
      "terraform destroy -target=module.db.aws_db_instance.example -auto-approve"
      "https://developer.hashicorp.com/terraform/cli/commands/destroy"
      "Experimental Commands";
    topic "get" "terraform get"
      "Download and update modules required by the configuration."
      "terraform get -update"
      "terraform get && terraform get -update"
      "https://developer.hashicorp.com/terraform/cli/commands/get"
      "Modules";
    topic "init_get_plugins" "terraform init -get-plugins"
      "Download necessary provider plugins; modern init handles this automatically."
      "terraform init -get-plugins"
      "terraform init -get-plugins"
      "https://developer.hashicorp.com/terraform/cli/commands/init"
      "Modules";
    topic "state_snapshot" "terraform state snapshot"
      "Create a snapshot/backup of the current state for recovery purposes."
      "terraform state pull > snapshot.tfstate"
      "terraform state pull > snapshot-2025-10-22.tfstate"
      "https://developer.hashicorp.com/terraform/cli/state"
      "Backups & Rollbacks";
    topic "state_restore" "terraform state restore"
      "Restore state from a backup file by pushing it back to the backend (advanced)."
      "terraform state push snapshot.tfstate"
      "terraform state push snapshot.tfstate"
      "https://developer.hashicorp.com/terraform/cli/state"
      "Backups & Rollbacks";
    topic "apply_backup_flag" "terraform apply -backup"
      "Specify a backup file to write current state before applying changes (provider-specific workflows)."
      "terraform apply -backup=backup.tfstate"
      "terraform apply -backup=backup-2025-10-22.tfstate -auto-approve"
      "https://developer.hashicorp.com/terraform/cli/commands/apply"
      "Backups & Rollbacks";
    topic "apply_auto_approve_repeat" "terraform apply -auto-approve"
      "Run apply automatically without confirmation; commonly used in automation pipelines."
      "terraform apply -auto-approve"
      "terraform apply -auto-approve"
      "https://developer.hashicorp.com/terraform/cli/commands/apply"
      "Automation & Scripting";
    topic "plan_detailed_exitcode" "terraform plan -detailed-exitcode"
      "Return exit codes that indicate whether a plan has changes (useful in CI to detect drift)."
      "terraform plan -detailed-exitcode"
      "terraform plan -detailed-exitcode || echo 'changes or error'"
      "https://developer.hashicorp.com/terraform/cli/commands/plan"
      "Automation & Scripting";
    topic "apply_parallelism" "terraform apply -parallelism"
      "Limit concurrency of resource operations during apply to control API load."
      "terraform apply -parallelism=10 -auto-approve"
      "terraform apply -parallelism=5 -auto-approve"
      "https://developer.hashicorp.com/terraform/cli/commands/apply"
      "Automation & Scripting";
    topic "login_logout" "terraform login / logout"
      "Authenticate to Terraform Cloud/Enterprise and remove local credentials."
      "terraform login"
      ("terraform login" +:+ nl +:+ "terraform logout")
      "https://developer.hashicorp.com/terraform/cli/commands/login"
      "Remote backend & collaboration";
    topic "init_backend_config" "terraform init -backend-config"
      "Initialize backend with specific configuration values for remote state."
      "terraform init -backend-config=backend.tf"
      ("terraform init -backend-config=" +:+ dq +:+ "bucket=my-bucket" +:+ dq +:+ " -reconfigure")
      "https://developer.hashicorp.com/terraform/language/state/overview"
      "Remote backend & collaboration";
    topic "init_force_copy" "terraform init -force-copy"
      "Force copying of state data when reinitializing a backend (use carefully)."
      "terraform init -force-copy"
      ("terraform init -force-copy -reconfigure -backend-config=" +:+ dq +:+ "bucket=my-bucket" +:+ dq)
      "https://developer.hashicorp.com/terraform/cli/commands/init"
      "Miscellaneous & tips";
    topic "plan_compact_warnings" "terraform plan -compact-warnings"
      "Reduce verbosity of warnings in plan output for cleaner logs."
      "terraform plan -compact-warnings -out=plan.tfplan"
      "terraform plan -compact-warnings -out=plan.tfplan"
      "https://developer.hashicorp.com/terraform/cli/commands/plan"
      "Miscellaneous & tips";
    topic "fmt_recursive" "terraform fmt -recursive"
      "Recursively format all .tf files under a directory."
      "terraform fmt -recursive"
      "terraform fmt -recursive"
      "https://developer.hashicorp.com/terraform/cli/commands/fmt"
      "Miscellaneous & tips";
    topic "force_unlock_misc" "terraform force-unlock"
      "Manually unlock the state using the lock ID to recover from stuck locks."
      "terraform force-unlock LOCK_ID"
      "terraform force-unlock 1234-abcd-5678"
      "https://developer.hashicorp.com/terraform/cli/commands/force-unlock"
      "Miscellaneous & tips"
  ].

(** ** Filter-and-sort engine *)

(** [o || ''] *)
Definition orEmpty (o : option string) : string := default "" o.

(** Truthiness of an optional string key: absent and empty are falsy. *)
Definition present (o : option string) : bool :=
  match o with Some s => truthy s | None => false end.

(** [t.score || 0] *)
Definition scoreOf (t : Topic) : Z := default 0 (score t).

(** The comparator handed to [sort]: [(a,b) => (b.score||0)-(a.score||0)]. *)
Definition compareFn (a b : Topic) : Z := scoreOf b - scoreOf a.

(** [Array.prototype.sort]: [y] moves in front of the earlier [x] only when
    the comparator puts it strictly first. *)
Section Sort.
Context {A : Type} (comparefn : A → A → Z).

Fixpoint insert (x : A) (l : list A) : list A :=
  match l with
  | [] => [x]
  | y :: l' => if comparefn y x <? 0 then y :: insert x l' else x :: l
  end.

Definition sort (l : list A) : list A := foldr insert [] l.
End Sort.

(** The text a Topic is searched in. *)
Definition combined (t : Topic) : string :=
  toLowerCase (title t +:+ " " +:+ orEmpty (desc t) +:+ " " +:+
               orEmpty (cmd t) +:+ " " +:+ orEmpty (example t)).

(** The callback of [topics.filter] for the normalised filter [ft]. *)
Definition keep (ft : string) (t : Topic) : bool :=
  if negb (truthy ft) then true else includes (combined t) ft.

(** The array [filtered] of [refresh] at the call of [buildCards]. *)
Definition filtered (topics : list Topic) (filterText : string) : list Topic :=
  let ft := toLowerCase (trim filterText) in
  sort compareFn (filter (λ t, keep ft t) topics).

(** ** Grouped renderer *)

(** Children of [#cards]: a section header (the text of its pill) or the
    column of a command card. *)
Record Card := mkCard {
  heading : string;            (* the [h6] *)
  blurb : option string;       (* the [p] under it *)
  scoreBadge : option Z;       (* [right.innerHTML]; [None] is the empty string *)
  docsHref : string;
  toggleText : string;         (* [toggle.innerText] *)
  exampleDisplay : string;     (* [exampleWrapper.style.display] *)
  codeBlock : option string;   (* [cmdBlock.textContent] *)
  copyText : option string;    (* [copyBtn.innerText] *)
  bound : Topic                (* the [t] its closures capture *)
}.

Inductive Node :=
  | SectionHeader (pill : string)
  | CommandCard (c : Card).

Definition pillText (c : string) : string := "# " +:+ c.

(** [t.score ? badge : ''] *)
Definition scoreHtml (t : Topic) : option Z :=
  match score t with
  | Some z => if z =? 0 then None else Some z
  | None => None
  end.

(** [(t.cmd ? t.cmd + '\n' : '') + (t.example ? t.example : '')], built
    only [if (t.cmd || t.example)]. *)
Definition exampleText (t : Topic) : option string :=
  if present (cmd t) || present (example t) then
    Some ((if present (cmd t) then orEmpty (cmd t) +:+ nl else "") +:+
          (if present (example t) then orEmpty (example t) else ""))
  else None.

Definition card (t : Topic) : Card :=
  {| heading := title t;
     blurb := desc t;
     scoreBadge := scoreHtml t;
     docsHref := if present (tf_link t) then orEmpty (tf_link t) else "#";
     toggleText := "Show example";
     exampleDisplay := "none";
     codeBlock := exampleText t;
     copyText := match exampleText t with Some _ => Some "Copy" | None => None end;
     bound := t |}.

(** One turn of the [forEach] of [buildCards]: the state is the Set
    [seenCategories] and the children appended so far. *)
Definition buildCard (st : gset string * list Node) (t : Topic)
    : gset string * list Node :=
  let '(seenCategories, container) := st in
  let '(seenCategories, container) :=
    match category t with
    | Some c =>
        if truthy c && negb (bool_decide (c ∈ seenCategories))
        then ({[c]} ∪ seenCategories, container ++ [SectionHeader (pillText c)])
        else (seenCategories, container)
    | None => (seenCategories, container)
    end in
  (seenCategories, container ++ [CommandCard (card t)]).

Definition buildCards (filtered : list Topic) : list Node :=
  (foldl buildCard (∅, []) filtered).2.

(** [refresh(filterText)]: the children of [#cards] once it returns. *)
Definition refresh (topics : list Topic) (filterText : string) : list Node :=
  buildCards (filtered topics filterText).

(** ** Card affordances: the disclosure toggle and the copy button *)

(** The page is driven by events, each handled to completion: a click on a
    toggle or on a copy button, the settling of a pending clipboard write
    (its [then] or [catch] callback runs in the same turn), and the
    passing of time, after which the timers that are due run in the order
    they were registered.  A child of [#cards] is named by its position;
    the page is not rendered anew while the events of interest run. *)

(** The click handler of [toggle], on the card it closes over. *)
Definition toggleExample (c : Card) : Card :=
  if String.eqb (exampleDisplay c) "none" then
    {| heading := heading c; blurb := blurb c; scoreBadge := scoreBadge c;
       docsHref := docsHref c; toggleText := "Hide example";
       exampleDisplay := "block"; codeBlock := codeBlock c;
       copyText := copyText c; bound := bound c |}
  else
    {| heading := heading c; blurb := blurb c; scoreBadge := scoreBadge c;
       docsHref := docsHref c; toggleText := "Show example";
       exampleDisplay := "none"; codeBlock := codeBlock c;
       copyText := copyText c; bound := bound c |}.

(** [btn.innerText = l] on the copy button of a card. *)
Definition setInnerText (l : string) (n : Node) : Node :=
  match n with
  | CommandCard c =>
      CommandCard
        {| heading := heading c; blurb := blurb c; scoreBadge := scoreBadge c;
           docsHref := docsHref c; toggleText := toggleText c;
           exampleDisplay := exampleDisplay c; codeBlock := codeBlock c;
           copyText := Some l; bound := bound c |}
  | SectionHeader _ => n
  end.

(** A pending [navigator.clipboard.writeText(text)] started from the copy
    button of child [button]. *)
Record Write := mkWrite { text : string; button : nat }.

(** A pending [setTimeout(() => btn.innerText = label, 1200)]. *)
Record Timer := mkTimer { due : Z; target : nat; label : string }.

(** The page between two turns of the event loop; [now] is in
    milliseconds.  [timers] is in registration order, which is also the
    order of the due times because every delay is the same. *)
Record Page := mkPage {
  cards : list Node;
  clipboard : option string;
  writes : list Write;
  timers : list Timer;
  now : Z
}.

Inductive Event :=
  | ToggleClick (i : nat)            (* click on the toggle of child [i] *)
  | CopyClick (i : nat)              (* click on the copy button of child [i] *)
  | WriteSettled (k : nat) (ok : bool) (* the [k]-th pending write resolves or rejects *)
  | Elapse (ms : Z).                 (* time passes and the due timers run *)

Definition delay : Z := 1200.

Definition copyLabel (p : Page) (i : nat) : option string :=
  match cards p !! i with
  | Some (CommandCard c) => copyText c
  | _ => None
  end.

Definition toggleNode (n : Node) : Node :=
  match n with
  | CommandCard c => CommandCard (toggleExample c)
  | SectionHeader _ => n
  end.

Definition fire (nodes : list Node) (tm : Timer) : list Node :=
  alter (setInnerText (label tm)) (target tm) nodes.

(** [copyToClipboard(text, btn)] once its promise has settled. *)
Definition settle (p : Page) (k : nat) (w : Write) (ok : bool) : Page :=
  if ok then
    let prev := default "" (copyLabel p (button w)) in
    {| cards := alter (setInnerText "Copied") (button w) (cards p);
       clipboard := Some (text w);
       writes := delete k (writes p);
       timers := timers p ++ [mkTimer (now p + delay) (button w) prev];
       now := now p |}
  else
    {| cards := alter (setInnerText "Copy failed") (button w) (cards p);
       clipboard := clipboard p;
       writes := delete k (writes p);
       timers := timers p ++ [mkTimer (now p + delay) (button w) "Copy"];
       now := now p |}.

Definition step (p : Page) (e : Event) : option Page :=
  match e with
  | ToggleClick i =>
      match cards p !! i with
      | Some (CommandCard _) =>
          Some {| cards := alter toggleNode i (cards p);
                  clipboard := clipboard p; writes := writes p;
                  timers := timers p; now := now p |}
      | _ => None
      end
  | CopyClick i =>
      match cards p !! i with
      | Some (CommandCard c) =>
          match codeBlock c with
          | Some code =>
              Some {| cards := cards p; clipboard := clipboard p;
                      writes := writes p ++ [mkWrite code i];
                      timers := timers p; now := now p |}
          | None => None
          end
      | _ => None
      end
  | WriteSettled k ok =>
      match writes p !! k with
      | Some w => Some (settle p k w ok)
      | None => None
      end
  | Elapse ms =>
      if 0 <=? ms then
        let t := now p + ms in
        Some {| cards := foldl fire (cards p) (filter (λ tm, due tm ≤ t) (timers p));
                clipboard := clipboard p; writes := writes p;
                timers := filter (λ tm, ¬ due tm ≤ t) (timers p);
                now := t |}
      else None
  end.

Fixpoint run (p : Page) (es : list Event) : option Page :=
  match es with
  | [] => Some p
  | e :: es' => match step p e with Some p' => run p' es' | None => None end
  end.

(** The page right after [refresh(filterText)] on a system whose clipboard
    holds [clip]. *)
Definition rendered (topics : list Topic) (filterText : string)
    (clip : option string) : Page :=
  {| cards := refresh topics filterText; clipboard := clip;
     writes := []; timers := []; now := 0 |}.

(** ** Vocabulary of the properties *)

(** [p] occurs in [s] as a contiguous substring. *)
Definition occursIn (p s : string) : Prop := ∃ a b, s = a +:+ p +:+ b.

(** The searched fields of a Topic, one by one. *)
Definition fields (t : Topic) : list string :=
  [title t; orEmpty (desc t); orEmpty (cmd t); orEmpty (example t)].

(** Case-insensitive containment of [f] in one of the four fields. *)
Definition fieldContains (f : string) (t : Topic) : bool :=
  existsb (λ s, includes (toLowerCase s) (toLowerCase f)) (fields t).

(** Descending order of scores. *)
Definition descending (l : list Topic) : Prop :=
  StronglySorted (λ a b, scoreOf b ≤ scoreOf a) l.

(** The sublist of the Topics whose score is [s]. *)
Definition scored (s : Z) (l : list Topic) : list Topic :=
  filter (λ t, scoreOf t = s) l.

(** The distinct values of [cs] in order of first occurrence; [seen] are
    the values met before. *)
Fixpoint firstSeen (seen cs : list string) : list string :=
  match cs with
  | [] => []
  | c :: cs' =>
      if bool_decide (c ∈ seen) then firstSeen seen cs'
      else c :: firstSeen (c :: seen) cs'
  end.

(** The pills of the section headers of a rendering, in order. *)
Definition headers (nodes : list Node) : list string :=
  omap (λ n, match n with SectionHeader h => Some h | CommandCard _ => None end)
       nodes.

(** The cards of a rendering, in order. *)
Definition cardsOf (nodes : list Node) : list Card :=
  omap (λ n, match n with CommandCard c => Some c | SectionHeader _ => None end)
       nodes.

(** The category a Topic is grouped under: a truthy [category]. *)
Definition group (t : Topic) : option string :=
  match category t with
  | Some c => if truthy c then Some c else None
  | None => None
  end.

(** Equal values are adjacent: a value that comes back later comes next. *)
Fixpoint contiguous {K : Type} `{EqDecision K} (l : list K) : bool :=
  match l with
  | [] => true
  | x :: l' =>
      (negb (bool_decide (x ∈ l')) || bool_decide (head l' = Some x))
      && contiguous l'
  end.

(** Every card that has a group stands under the header of that group:
    [cur] is the pill of the last header above. *)
Fixpoint underOwnHeader (cur : option string) (nodes : list Node) : bool :=
  match nodes with
  | [] => true
  | SectionHeader h :: rest => underOwnHeader (Some h) rest
  | CommandCard c :: rest =>
      match group (bound c) with
      | Some g => bool_decide (cur = Some (pillText g))
      | None => true
      end && underOwnHeader cur rest
  end.

(** Cards of one category are together, under the header of the category. *)
Definition groupedTogether (nodes : list Node) : bool :=
  contiguous (map (λ c, group (bound c)) (cardsOf nodes))
  && underOwnHeader None nodes.

(** The loop of [buildCards] from some Topic on, given the categories
    seen before it. *)
Fixpoint renderFrom (seen : gset string) (l : list Topic) : list Node :=
  match l with
  | [] => []
  | t :: l' =>
      match group t with
      | Some c =>
          if bool_decide (c ∈ seen) then
            CommandCard (card t) :: renderFrom seen l'
          else
            SectionHeader (pillText c) :: CommandCard (card t)
              :: renderFrom ({[c]} ∪ seen) l'
      | None => CommandCard (card t) :: renderFrom seen l'
      end
  end.

(** The header opened by [t] when the Topics [pre] come before it. *)
Definition opened (pre : list Topic) (t : Topic) : list Node :=
  match group t with
  | Some c =>
      if bool_decide (c ∈ omap group pre) then []
      else [SectionHeader (pillText c)]
  | None => []
  end.

Global Instance Topic_eq_dec : EqDecision Topic.
Proof. solve_decision. Defined.

(** No value comes back after another one has been met. *)
Definition noReturn {K : Type} (l : list K) : Prop :=
  ∀ x y, x ≠ y → ¬ [x; y; x] `sublist_of` l.


(** What every handler keeps true of a child of [#cards]. *)
Definition sound (n : Node) : Prop :=
  match n with
  | SectionHeader _ => True
  | CommandCard c =>
      codeBlock c = exampleText (bound c)
      ∧ (exampleDisplay c = "none" → toggleText c = "Show example")
  end.

(** ** Sample catalogs *)

(** A Topic with a category and a score only. *)
Definition bare (i g : string) (s : option Z) : Topic :=
  {| id := i; title := i; desc := None; cmd := None; example := None;
     tf_link := None; category := Some g; score := s |}.

(** Three scored Topics of one category. *)
Definition ranked : list Topic :=
  [bare "init" "Basic" (Some 90); bare "plan" "Basic" (Some 95);
   bare "apply" "Basic" (Some 85)].

(** A category that comes back after another one. *)
Definition scattered : list Topic :=
  [bare "init" "Basic" None; bare "state_list" "State" None;
   bare "plan" "Basic" None].

(** A Topic whose category is the empty string. *)
Definition unlabelled : list Topic := [bare "init" "" None].

(** One Topic with a command and a one-line example. *)
Definition single : list Topic :=
  [topic "init" "terraform init" "Initialize a working directory."
     "terraform init" "terraform init -upgrade"
     "https://developer.hashicorp.com/terraform/cli/commands/init" "Basic"].

(** The page showing [single], and the same page after two copies were
    clicked before either write settled, both writes succeeded and the
    acknowledgements ran out. *)
Definition fresh : Page := rendered single "" None.

Definition overlapped : Page :=
  default fresh
    (run fresh [CopyClick 1; CopyClick 1; WriteSettled 0 true;
                WriteSettled 0 true; Elapse 1200]).

(** ** Vocabulary of the page invariants *)

(** The text of the code block of a child, when it is a card with one. *)
Definition codeOf (n : Node) : option string :=
  match n with
  | CommandCard c => codeBlock c
  | SectionHeader _ => None
  end.

Definition codeAt (nodes : list Node) (i : nat) : option string :=
  nodes !! i ≫= codeOf.

(** The texts a copy button can show. *)
Definition labels : list string := ["Copy"; "Copied"; "Copy failed"].

(** What holds of every child on a page reached from a rendering of [vm]. *)
Definition tidy (vm : list Topic) (n : Node) : Prop :=
  match n with
  | SectionHeader _ => True
  | CommandCard c =>
      bound c ∈ vm
      ∧ codeBlock c = exampleText (bound c)
      ∧ match copyText c with
        | Some l => l ∈ labels ∧ is_Some (codeBlock c)
        | None => codeBlock c = None
        end
      ∧ ((exampleDisplay c = "none" ∧ toggleText c = "Show example")
         ∨ (exampleDisplay c = "block" ∧ toggleText c = "Hide example"))
  end.

(** What holds of a page reached from a rendering of [vm] on a system
    whose clipboard held [clip]. *)
Definition coherent (vm : list Topic) (clip : option string) (p : Page) : Prop :=
  Forall (tidy vm) (cards p)
  ∧ Forall (λ w, codeAt (cards p) (button w) = Some (text w)) (writes p)
  ∧ Forall (λ tm, is_Some (codeAt (cards p) (target tm))
                  ∧ label tm ∈ labels ∧ due tm ≤ now p + 1200) (timers p)
  ∧ (clipboard p = clip
     ∨ ∃ i code, codeAt (cards p) i = Some code ∧ clipboard p = Some code).

(** ** Category colours *)

(** [s.charCodeAt(i)] *)
Definition charCodeAt (c : ascii) : Z := Z.of_nat (nat_of_ascii c).

(** The loop of [hueForString] from the character at hand on, [h] being
    the hue so far. *)
Fixpoint hueFrom (h : Z) (s : string) : Z :=
  match s with
  | EmptyString => h
  | String c s' => hueFrom ((h * 31 + charCodeAt c) mod 360) s'
  end.

Definition hueForString (s : string) : Z := hueFrom 0 s.

(** The gradient drawn for a hue. *)
Definition gradientOf (h : Z) : string :=
  let h2 := (h + 40) mod 360 in
  let c1 := "hsl(" +:+ pretty h +:+ ", 75%, 45%)" in
  let c2 := "hsl(" +:+ pretty h2 +:+ ", 65%, 55%)" in
  "linear-gradient(90deg, " +:+ c1 +:+ ", " +:+ c2 +:+ ")".

Definition categoryGradient (name : string) : string :=
  gradientOf (hueForString name).

(** Reading a gradient back: the number that the decimal digits at the
    start of a string write, after [acc], and the first hue of a gradient,
    which starts after the 27 characters [linear-gradient(90deg, hsl(]. *)
Fixpoint readNumber (acc : Z) (s : string) : Z :=
  match s with
  | EmptyString => acc
  | String c s' =>
      let n := Z.of_nat (nat_of_ascii c) in
      if (48 <=? n) && (n <=? 57) then readNumber (acc * 10 + (n - 48)) s'
      else acc
  end.

Fixpoint dropChars (n : nat) (s : string) : string :=
  match n, s with
  | O, _ => s
  | S n', String _ s' => dropChars n' s'
  | S _, EmptyString => EmptyString
  end.

Definition firstHue (g : string) : Z := readNumber 0 (dropChars 27 g).

(** ** The search box and the reset button *)

(** What the user sees: the value of [#search] and the children of
    [#cards].  Pending copies are left out: a rendering detaches the
    buttons they would relabel. *)
Record View := mkView { search : string; container : list Node }.

Inductive Gesture :=
  | Typed (v : string)   (* the [input] event, the box now holding [v] *)
  | ResetClick           (* click on [#reset] *)
  | Toggle (i : nat).    (* click on the toggle of child [i] *)

(** The view after the script has run: [refresh('')] on an empty box. *)
Definition loaded (topics : list Topic) : View :=
  {| search := ""; container := refresh topics "" |}.

Definition handle (topics : list Topic) (v : View) (g : Gesture)
    : option View :=
  match g with
  | Typed s => Some {| search := s; container := refresh topics s |}
  | ResetClick => Some {| search := ""; container := refresh topics "" |}
  | Toggle i =>
      match container v !! i with
      | Some (CommandCard _) =>
          Some {| search := search v;
                  container := alter toggleNode i (container v) |}
      | _ => None
      end
  end.

Fixpoint session (topics : list Topic) (v : View) (gs : list Gesture)
    : option View :=
  match gs with
  | [] => Some v
  | g :: gs' =>
      match handle topics v g with
      | Some v' => session topics v' gs'
      | None => None
      end
  end.

(** A child as rendered, or with its example opened since. *)
Definition asRendered (n m : Node) : Prop := n = m ∨ n = toggleNode m.


(** The page showing [single] once its example was copied. *)
Definition copied : Page :=
  default fresh (run fresh [CopyClick 1; WriteSettled 0 true]).

(** * Properties *)

(** ** The primitives on examples *)

Example trim_example :
  trim ("  State" +:+ nl +:+ " mv " +:+ nl) = "State" +:+ nl +:+ " mv".
Proof. reflexivity. Qed.

Example toLowerCase_example :
  toLowerCase "Terraform INIT -Upgrade_1" = "terraform init -upgrade_1".
Proof. reflexivity. Qed.

Example includes_example :
  includes "terraform state list" "state l" = true
  ∧ includes "terraform state list" "statel" = false
  ∧ includes "terraform" "" = true.
Proof. by vm_compute. Qed.

(** The scenario of one matching and one non-matching entry. *)
Example state_filter_example :
  map id (filtered (filter (λ t, id t = "state_list" ∨ id t = "version") TOPICS)
            "state") = ["state_list"].
Proof. by vm_compute. Qed.

(** Three scored Topics of one category under a single header. *)
Example ranked_rendering :
  map (λ n, match n with
            | SectionHeader h => h
            | CommandCard c => heading c
            end) (refresh ranked "")
  = ["# Basic"; "plan"; "init"; "apply"].
Proof. by vm_compute. Qed.

(** ** Strings *)

Lemma append_cons (x : ascii) (a b : string) :
  String x a +:+ b = String x (a +:+ b).
Proof. reflexivity. Qed.

Lemma append_assoc (a b c : string) : (a +:+ b) +:+ c = a +:+ b +:+ c.
Proof.
  induction a as [|x a IH]; [done |]. by rewrite !append_cons, IH.
Qed.

Lemma append_empty_r (a : string) : a +:+ "" = a.
Proof. induction a as [|x a IH]; [done |]. by rewrite append_cons, IH. Qed.

Lemma toLowerCase_app (a b : string) :
  toLowerCase (a +:+ b) = toLowerCase a +:+ toLowerCase b.
Proof.
  induction a as [|x a IH]; [done |].
  rewrite append_cons. simpl. by rewrite IH, append_cons.
Qed.

Lemma startsWith_spec (s p : string) :
  startsWith s p = true ↔ ∃ b, s = p +:+ b.
Proof.
  revert s. induction p as [|y p IH]; intros s; simpl.
  - split; [intros _; by exists s | done].
  - destruct s as [|x s].
    + split; [done | by intros [b Hb]].
    + destruct (Ascii.eqb_spec x y) as [->|Hxy].
      * rewrite IH. split; intros [b Hb]; exists b;
          rewrite ?append_cons in *; congruence.
      * split; [done | intros [b Hb]; rewrite append_cons in Hb; congruence].
Qed.

Lemma includes_spec (s p : string) : includes s p = true ↔ occursIn p s.
Proof.
  unfold occursIn. induction s as [|x s IH].
  - simpl. rewrite orb_false_r, startsWith_spec. split.
    + intros [b Hb]. by exists "", b.
    + intros (a & b & Hab). destruct a; [by exists b | done].
  - cbn [includes]. rewrite orb_true_iff, startsWith_spec, IH. split.
    + intros [[b Hb] | (a & b & Hab)].
      * by exists "", b.
      * exists (String x a), b. by rewrite append_cons, Hab.
    + intros (a & b & Hab). destruct a as [|y a].
      * left. by exists b.
      * right. exists a, b. rewrite append_cons in Hab. congruence.
Qed.

Lemma trimStart_blank (s : string) : blank s = true → trimStart s = "".
Proof.
  induction s as [|c s IH]; simpl; [done |].
  intros [Hc Hs]%andb_true_iff. rewrite Hc. auto.
Qed.

Lemma trim_blank (s : string) : blank s = true → trim s = "".
Proof. intros H. unfold trim. by rewrite trimStart_blank. Qed.

(** ** The stable sort *)

Section SortFacts.
Implicit Types (x y : Topic) (l : list Topic).

Lemma insert_cons x y l :
  insert compareFn x (y :: l) =
    if decide (scoreOf x < scoreOf y) then y :: insert compareFn x l
    else x :: y :: l.
Proof.
  simpl. unfold compareFn.
  case_decide; destruct (Z.ltb_spec (scoreOf x - scoreOf y) 0); by try lia.
Qed.

Lemma insert_perm x l : insert compareFn x l ≡ₚ x :: l.
Proof.
  induction l as [|y l IH]; [done |]. rewrite insert_cons.
  case_decide; [| done]. rewrite IH. apply Permutation_swap.
Qed.

Lemma sort_perm l : sort compareFn l ≡ₚ l.
Proof.
  induction l as [|x l IH]; [done |]. simpl.
  by rewrite insert_perm, IH.
Qed.

Lemma insert_top x l :
  Forall (λ y, scoreOf y ≤ scoreOf x) l → insert compareFn x l = x :: l.
Proof.
  destruct l as [|y l]; [done |]. intros [Hy _]%Forall_cons.
  rewrite insert_cons. case_decide; [lia | done].
Qed.

Lemma insert_descending x l :
  descending l → descending (insert compareFn x l).
Proof.
  unfold descending. induction l as [|y l IH]; intros Hl.
  - repeat constructor.
  - apply StronglySorted_inv in Hl as [Hl Hy]. rewrite insert_cons.
    case_decide.
    + constructor; [by apply IH |].
      rewrite insert_perm. constructor; [lia | done].
    + constructor; [by constructor |].
      constructor; [lia |].
      eapply Forall_impl; [exact Hy |]. simpl. intros; lia.
Qed.

Lemma sort_descending l : descending (sort compareFn l).
Proof.
  induction l as [|x l IH]; simpl; [constructor |].
  by apply insert_descending.
Qed.

Lemma insert_scored s x l :
  scored s (insert compareFn x l) = scored s (x :: l).
Proof.
  unfold scored. induction l as [|y l IH]; [done |].
  rewrite insert_cons. case_decide; [| done].
  rewrite filter_cons, IH, !filter_cons.
  repeat case_decide; try done; lia.
Qed.

Lemma sort_scored s l : scored s (sort compareFn l) = scored s l.
Proof.
  induction l as [|x l IH]; [done |]. simpl.
  rewrite insert_scored. unfold scored in *.
  by rewrite !filter_cons, IH.
Qed.

Lemma filter_insert (P : Topic → Prop) `{!∀ t, Decision (P t)} x l :
  descending l →
  filter P (insert compareFn x l) =
    if decide (P x) then insert compareFn x (filter P l) else filter P l.
Proof.
  induction l as [|y l IH]; intros Hl.
  - simpl. rewrite filter_cons. by case_decide.
  - pose proof Hl as [Hl' Hy]%StronglySorted_inv.
    rewrite insert_cons.
    destruct (decide (scoreOf x < scoreOf y)) as [Hxy|Hxy].
    + rewrite !filter_cons, IH by done.
      destruct (decide (P x)), (decide (P y)); try done.
      rewrite insert_cons. by rewrite decide_True.
    + rewrite !filter_cons.
      destruct (decide (P x)); [| done]. destruct (decide (P y)).
      * rewrite insert_cons. by rewrite decide_False.
      * symmetry. apply insert_top. eapply Forall_forall. intros z Hz.
        apply list_elem_of_filter in Hz as [_ Hz].
        eapply Forall_forall in Hy; [| exact Hz]. simpl in Hy. lia.
Qed.

Lemma sort_filter (P : Topic → Prop) `{!∀ t, Decision (P t)} l :
  sort compareFn (filter P l) = filter P (sort compareFn l).
Proof.
  induction l as [|x l IH]; [done |]. simpl.
  rewrite filter_insert by apply sort_descending.
  rewrite filter_cons. case_decide; [| done]. simpl. by rewrite IH.
Qed.

Lemma sort_id l : descending l → sort compareFn l = l.
Proof.
  unfold descending. induction l as [|x l IH]; [done |].
  intros [Hl Hx]%StronglySorted_inv. simpl. rewrite IH by done.
  by apply insert_top.
Qed.
End SortFacts.

Lemma scored_cons (s : Z) (x : Topic) (l : list Topic) :
  scored s (x :: l) =
    if decide (scoreOf x = s) then x :: scored s l else scored s l.
Proof. unfold scored. by rewrite filter_cons. Qed.

Lemma descending_head (x y : Topic) (l k : list Topic) :
  descending (x :: l) → descending (y :: k) →
  (∀ s, scored s (x :: l) = scored s (y :: k)) →
  scoreOf x = scoreOf y.
Proof.
  intros [_ Hx]%StronglySorted_inv [_ Hy]%StronglySorted_inv Heq.
  assert (x ∈ y :: k) as Hxin.
  { eapply (sublist_subseteq (scored (scoreOf x) (y :: k)));
      [apply sublist_filter |].
    rewrite <- Heq, scored_cons, decide_True by done. by left. }
  assert (y ∈ x :: l) as Hyin.
  { eapply (sublist_subseteq (scored (scoreOf y) (x :: l)));
      [apply sublist_filter |].
    rewrite Heq, scored_cons, decide_True by done. by left. }
  apply elem_of_cons in Hxin as [-> | Hxin]; [done |].
  apply elem_of_cons in Hyin as [-> | Hyin]; [done |].
  eapply Forall_forall in Hx; [| exact Hyin].
  eapply Forall_forall in Hy; [| exact Hxin]. simpl in *. lia.
Qed.

(** A descending list is determined by its Topics of each score, in order:
    every stable sort by descending score returns the same array. *)
Lemma stable_sort_unique (l k : list Topic) :
  descending l → descending k →
  (∀ s, scored s l = scored s k) → l = k.
Proof.
  revert k. induction l as [|x l IH]; intros [|y k] Hl Hk Heq.
  - done.
  - specialize (Heq (scoreOf y)).
    by rewrite scored_cons, decide_True in Heq.
  - specialize (Heq (scoreOf x)).
    by rewrite scored_cons, decide_True in Heq.
  - pose proof (descending_head x y l k Hl Hk Heq) as Hxy.
    pose proof (Heq (scoreOf x)) as Hhead.
    rewrite !scored_cons, decide_True, decide_True in Hhead by done.
    injection Hhead as -> Htail.
    f_equal. apply IH.
    + by apply StronglySorted_inv in Hl as [? _].
    + by apply StronglySorted_inv in Hk as [? _].
    + intros s. specialize (Heq s). rewrite !scored_cons in Heq.
      case_decide; [by injection Heq | done].
Qed.

(** In particular the array any stable [Array.prototype.sort] leaves is the
    one [sort] computes. *)
Lemma sort_characterised (l k : list Topic) :
  descending k → (∀ s, scored s k = scored s l) → k = sort compareFn l.
Proof.
  intros Hk Heq. apply stable_sort_unique; [done | apply sort_descending |].
  intros s. by rewrite sort_scored.
Qed.

(** ** The filter *)

Lemma trimStart_suffix (s : string) : ∃ a, s = a +:+ trimStart s.
Proof.
  induction s as [|c s [a IH]]; [by exists "" |]. simpl.
  destruct (isWhiteSpace c); [| by exists ""].
  exists (String c a). by rewrite append_cons, <- IH.
Qed.

Lemma trimEnd_prefix (s : string) : ∃ b, s = trimEnd s +:+ b.
Proof.
  induction s as [|c s [b IH]]; [by exists "" |]. simpl.
  destruct (trimEnd s) as [|d r] eqn:Hr.
  - destruct (isWhiteSpace c).
    + by exists (String c s).
    + exists b. rewrite IH at 1. done.
  - exists b. rewrite IH at 1. done.
Qed.

Lemma trim_occursIn (s : string) : occursIn (trim s) s.
Proof.
  destruct (trimStart_suffix s) as [a Ha].
  destruct (trimEnd_prefix (trimStart s)) as [b Hb].
  exists a, b. unfold trim. by rewrite <- Hb.
Qed.

Lemma toLowerCase_occursIn (p s : string) :
  occursIn p s → occursIn (toLowerCase p) (toLowerCase s).
Proof.
  intros (a & b & ->). exists (toLowerCase a), (toLowerCase b).
  by rewrite !toLowerCase_app.
Qed.

Lemma occursIn_trans (p q s : string) :
  occursIn p q → occursIn q s → occursIn p s.
Proof.
  intros (a & b & ->) (c & d & ->). exists (c +:+ a), (b +:+ d).
  by rewrite !append_assoc.
Qed.

Lemma field_in_combined (p s : string) (t : Topic) :
  s ∈ fields t → occursIn p (toLowerCase s) → occursIn p (combined t).
Proof.
  intros Hs Hp. eapply occursIn_trans; [exact Hp |].
  unfold combined. apply toLowerCase_occursIn.
  unfold fields in Hs. set_unfold in Hs.
  destruct Hs as [->|[->|[->|[->|[]]]]].
  - by exists "", (" " +:+ orEmpty (desc t) +:+ " " +:+ orEmpty (cmd t)
                    +:+ " " +:+ orEmpty (example t)).
  - exists (title t +:+ " "),
           (" " +:+ orEmpty (cmd t) +:+ " " +:+ orEmpty (example t)).
    by rewrite !append_assoc.
  - exists (title t +:+ " " +:+ orEmpty (desc t) +:+ " "),
           (" " +:+ orEmpty (example t)).
    by rewrite !append_assoc.
  - exists (title t +:+ " " +:+ orEmpty (desc t) +:+ " "
            +:+ orEmpty (cmd t) +:+ " "), "".
    by rewrite !append_assoc, append_empty_r.
Qed.

Lemma keep_spec (ft : string) (t : Topic) :
  keep ft t = true ↔ ft = "" ∨ occursIn ft (combined t).
Proof.
  unfold keep. destruct ft as [|c ft]; simpl.
  - split; [by left | done].
  - rewrite includes_spec. split; [by right | by intros [?|?]].
Qed.

Lemma elem_of_filtered (topics : list Topic) (f : string) (t : Topic) :
  t ∈ filtered topics f ↔ t ∈ topics ∧ keep (toLowerCase (trim f)) t = true.
Proof.
  unfold filtered. rewrite sort_perm, list_elem_of_filter.
  rewrite Is_true_true. tauto.
Qed.

Lemma fieldContains_keep (f : string) (t : Topic) :
  fieldContains f t = true → keep (toLowerCase (trim f)) t = true.
Proof.
  unfold fieldContains. rewrite existsb_exists.
  intros (s & Hs%list_elem_of_In & Hin%includes_spec).
  apply keep_spec. right. eapply field_in_combined; [exact Hs |].
  eapply occursIn_trans; [| exact Hin].
  apply toLowerCase_occursIn, trim_occursIn.
Qed.

Lemma filter_sublist_mono {A} (P : A → Prop) `{!∀ x, Decision (P x)}
    (l k : list A) :
  l `sublist_of` k → filter P l `sublist_of` filter P k.
Proof.
  induction 1 as [|x l k Hs IH|x l k Hs IH]; [done | |];
    rewrite ?filter_cons; repeat case_decide; try done.
  - by constructor.
  - by constructor.
Qed.

Lemma filtered_alt (topics : list Topic) (f : string) :
  filtered topics f =
    filter (λ t, keep (toLowerCase (trim f)) t) (sort compareFn topics).
Proof. unfold filtered. apply sort_filter. Qed.

Lemma scored_filtered (topics : list Topic) (f : string) (s : Z) :
  scored s (filtered topics f) `sublist_of` scored s topics.
Proof.
  unfold filtered. rewrite sort_scored. unfold scored.
  apply filter_sublist_mono, sublist_filter.
Qed.

Lemma scored_sublist (s : Z) (l : list Topic) : scored s l `sublist_of` l.
Proof. apply sublist_filter. Qed.

Lemma pair_order (l k : list Topic) (a b : Topic) :
  (∀ s, scored s l `sublist_of` k) →
  [a; b] `sublist_of` l → scoreOf a = scoreOf b → [a; b] `sublist_of` k.
Proof.
  intros Hk Hab Heq. etrans; [| apply (Hk (scoreOf a))].
  apply (filter_sublist_mono (λ t, scoreOf t = scoreOf a)) in Hab.
  rewrite !filter_cons, filter_nil in Hab.
  rewrite decide_True in Hab by done. by rewrite decide_True in Hab.
Qed.

(** C1, as amended.  A Topic is in the filtered result exactly when it is in
    the catalog and the trimmed, lower-cased filter is empty or occurs in
    the lower-cased text [title + ' ' + desc + ' ' + cmd + ' ' + example].
    A Topic of the catalog one of whose four fields contains the filter,
    case-insensitively, is in the result; so every Topic left out fails the
    field-by-field check.  The converse is not claimed: a match may run
    across the space that joins two fields. *)
Theorem filter_membership (topics : list Topic) (f : string) (t : Topic) :
  (t ∈ filtered topics f ↔
     t ∈ topics ∧
     (toLowerCase (trim f) = "" ∨
      occursIn (toLowerCase (trim f)) (combined t)))
  ∧ (t ∈ topics → fieldContains f t = true → t ∈ filtered topics f).
Proof.
  split.
  - by rewrite elem_of_filtered, keep_spec.
  - intros Ht Hf. apply elem_of_filtered. eauto using fieldContains_keep.
Qed.

(** C2.  For a filter that is empty or made of white space only, the
    filtered result is the whole catalog, stably sorted: it is a
    permutation of the catalog, in descending order of score, and the
    Topics of any one score come in catalog order. *)
Theorem blank_filter_keeps_all (topics : list Topic) (f : string) :
  blank f = true →
  filtered topics f = sort compareFn topics
  ∧ filtered topics f ≡ₚ topics
  ∧ descending (filtered topics f)
  ∧ (∀ s, scored s (filtered topics f) = scored s topics)
  ∧ (∀ a b, [a; b] `sublist_of` filtered topics f → scoreOf a = scoreOf b →
            [a; b] `sublist_of` topics).
Proof.
  intros Hf.
  assert (filtered topics f = sort compareFn topics) as ->.
  { unfold filtered. rewrite (trim_blank f Hf). simpl. f_equal.
    induction topics as [|t l IH]; [done |].
    rewrite filter_cons. simpl. by rewrite IH. }
  split_and!;
    [done | apply sort_perm | apply sort_descending
     | intros s; apply sort_scored |].
  intros a b. apply pair_order. intros s.
  rewrite sort_scored. apply scored_sublist.
Qed.

(** C3.  For every filter the result is the catalog sorted by descending
    score (an absent score counting as zero) with the Topics the filter
    drops taken out, so a subsequence of the sorted catalog that holds
    every kept Topic as often as the catalog does; it is in descending
    order; and the sort is stable: the Topics of any one score are the
    kept Topics of that score in catalog order, so when [a] comes before
    [b] in the result and their scores are equal, [a] comes before [b] in
    the catalog. *)
Theorem filtered_is_stable_subsequence (topics : list Topic) (f : string) :
  filtered topics f `sublist_of` sort compareFn topics
  ∧ descending (filtered topics f)
  ∧ (∀ s, scored s (filtered topics f) `sublist_of` scored s topics)
  ∧ (∀ a b, [a; b] `sublist_of` filtered topics f → scoreOf a = scoreOf b →
            [a; b] `sublist_of` topics)
  ∧ filtered topics f =
      filter (λ t, keep (toLowerCase (trim f)) t) (sort compareFn topics)
  ∧ filtered topics f ≡ₚ filter (λ t, keep (toLowerCase (trim f)) t) topics
  ∧ (∀ s, scored s (filtered topics f) =
          scored s (filter (λ t, keep (toLowerCase (trim f)) t) topics)).
Proof.
  split_and!.
  - rewrite filtered_alt. apply sublist_filter.
  - apply sort_descending.
  - apply scored_filtered.
  - intros a b. apply pair_order. intros s.
    etrans; [apply scored_filtered | apply scored_sublist].
  - apply filtered_alt.
  - apply sort_perm.
  - intros s. apply sort_scored.
Qed.

(** ** The renderer *)

Lemma buildCard_group (seen : gset string) (acc : list Node) (t : Topic) :
  buildCard (seen, acc) t =
    match group t with
    | Some c =>
        if bool_decide (c ∈ seen) then (seen, acc ++ [CommandCard (card t)])
        else ({[c]} ∪ seen,
              (acc ++ [SectionHeader (pillText c)]) ++ [CommandCard (card t)])
    | None => (seen, acc ++ [CommandCard (card t)])
    end.
Proof.
  unfold buildCard, group. destruct (category t) as [c|]; [| done].
  destruct (truthy c); [| done]. simpl. by case_bool_decide.
Qed.

Lemma foldl_buildCard (l : list Topic) (seen : gset string) (acc : list Node) :
  (foldl buildCard (seen, acc) l).2 = acc ++ renderFrom seen l.
Proof.
  revert seen acc. induction l as [|t l IH]; intros seen acc.
  - simpl. by rewrite app_nil_r.
  - change (foldl buildCard (seen, acc) (t :: l))
      with (foldl buildCard (buildCard (seen, acc) t) l).
    rewrite buildCard_group. simpl. destruct (group t) as [c|].
    + case_bool_decide; rewrite IH; by rewrite <- ?app_assoc.
    + rewrite IH. by rewrite <- app_assoc.
Qed.

Lemma buildCards_renderFrom (l : list Topic) : buildCards l = renderFrom ∅ l.
Proof. unfold buildCards. by rewrite foldl_buildCard. Qed.

Lemma cardsOf_renderFrom (l : list Topic) (seen : gset string) :
  cardsOf (renderFrom seen l) = map card l.
Proof.
  revert seen. induction l as [|t l IH]; intros seen; [done |]. simpl.
  destruct (group t); [case_bool_decide |]; unfold cardsOf in *; simpl;
    by rewrite IH.
Qed.

Lemma headers_renderFrom (l : list Topic) (S : gset string) (L : list string) :
  (∀ c, c ∈ S ↔ c ∈ L) →
  headers (renderFrom S l) = map pillText (firstSeen L (omap group l)).
Proof.
  revert S L. induction l as [|t l IH]; intros S L HSL; [done |]. simpl.
  destruct (group t) as [c|]; simpl; [| by apply IH].
  rewrite (bool_decide_ext (c ∈ S) (c ∈ L)) by done.
  case_bool_decide; unfold headers in *; simpl.
  - by apply IH.
  - f_equal. apply IH. intros d. set_solver.
Qed.

Lemma firstSeen_elem (cs seen : list string) (c : string) :
  c ∈ firstSeen seen cs ↔ c ∈ cs ∧ c ∉ seen.
Proof.
  revert seen. induction cs as [|d cs IH]; intros seen; simpl.
  - set_solver.
  - case_bool_decide.
    + rewrite IH. set_solver.
    + rewrite elem_of_cons, IH. destruct (decide (c = d)); set_solver.
Qed.

Lemma firstSeen_NoDup (cs seen : list string) : NoDup (firstSeen seen cs).
Proof.
  revert seen. induction cs as [|d cs IH]; intros seen; simpl.
  - constructor.
  - case_bool_decide; [done |]. constructor; [| done].
    rewrite firstSeen_elem. set_solver.
Qed.

Lemma renderFrom_app (pre l : list Topic) (seen : gset string) :
  renderFrom seen (pre ++ l) =
    renderFrom seen pre ++
    renderFrom (seen ∪ list_to_set (omap group pre)) l.
Proof.
  revert seen. induction pre as [|u pre IH]; intros seen.
  - simpl. f_equal. set_solver.
  - rewrite <- app_comm_cons. cbn [renderFrom].
    destruct (group u) as [d|] eqn:Hu.
    + assert (omap group (u :: pre) = d :: omap group pre) as ->.
      { simpl. by rewrite Hu. }
      case_bool_decide as Hd; rewrite IH, <- ?app_comm_cons.
      * replace (seen ∪ list_to_set (d :: omap group pre))
          with (seen ∪ list_to_set (omap group pre) : gset string)
          by set_solver.
        done.
      * replace (seen ∪ list_to_set (d :: omap group pre))
          with ({[d]} ∪ seen ∪ list_to_set (omap group pre) : gset string)
          by set_solver.
        done.
    + assert (omap group (u :: pre) = omap group pre) as ->.
      { simpl. by rewrite Hu. }
      by rewrite IH.
Qed.

(** C4, as amended.  The headers of a rendering are the distinct non-empty
    categories of the view model in order of first occurrence, none twice;
    and the header of a category stands right before the card of the first
    Topic that has it ([opened pre t] is that header when no Topic of [pre]
    has the category of [t], and nothing otherwise).  A Topic whose
    category is absent or empty opens no header. *)
Theorem headers_first_seen (vm : list Topic) :
  headers (buildCards vm) = map pillText (firstSeen [] (omap group vm))
  ∧ NoDup (headers (buildCards vm))
  ∧ (∀ pre t post, ∃ rest,
       buildCards (pre ++ t :: post) =
         buildCards pre ++ opened pre t ++ CommandCard (card t) :: rest).
Proof.
  assert (headers (buildCards vm) =
          map pillText (firstSeen [] (omap group vm))) as Hh.
  { rewrite buildCards_renderFrom. apply headers_renderFrom. set_solver. }
  split_and!; [done | |].
  - rewrite Hh. apply (NoDup_fmap_2 _), firstSeen_NoDup. 
  - intros pre t post. rewrite !buildCards_renderFrom, renderFrom_app.
    unfold opened. cbn [renderFrom]. destruct (group t) as [c|].
    + rewrite (bool_decide_ext (c ∈ ∅ ∪ list_to_set (omap group pre))
                 (c ∈ omap group pre)) by set_solver.
      case_bool_decide; by eexists.
    + by eexists.
Qed.

(** ** Contiguity of groups *)

Section Contiguous.
Context {K : Type} `{EqDecision K}.
Implicit Types (x y : K) (l k : list K).

Lemma contiguous_cons x l :
  contiguous (x :: l) = true ↔
    (x ∈ l → head l = Some x) ∧ contiguous l = true.
Proof.
  simpl. rewrite andb_true_iff, orb_true_iff, negb_true_iff.
  rewrite bool_decide_eq_false, bool_decide_eq_true.
  destruct (decide (x ∈ l)); naive_solver.
Qed.

Lemma contiguous_run x y l :
  contiguous (x :: l) = true → x ≠ y → ¬ [y; x] `sublist_of` l.
Proof.
  intros Hc Hxy. induction l as [|w l IH]; intros Hs.
  - by apply sublist_nil_r in Hs.
  - apply contiguous_cons in Hc as [Hx Hc].
    assert (x ∈ w :: l) as Hin.
    { eapply sublist_subseteq; [exact Hs |]. set_solver. }
    specialize (Hx Hin). simpl in Hx. simplify_eq.
    apply IH; [done |].
    apply sublist_cons_r in Hs as [Hs | (k & ? & _)]; [done | congruence].
Qed.

Lemma contiguous_noReturn l : contiguous l = true ↔ noReturn l.
Proof.
  split.
  - induction l as [|z l IH]; intros Hc x y Hxy Hs.
    + by apply sublist_nil_r in Hs.
    + pose proof Hc as [_ Hl]%contiguous_cons.
      apply sublist_cons_r in Hs as [Hs | (k & [= <- <-] & Hs)].
      * by apply (IH Hl x y).
      * by apply (contiguous_run x y l).
  - induction l as [|z l IH]; intros Hn; [done |].
    apply contiguous_cons. split.
    + destruct l as [|w l]; [by intros ?%elem_of_nil |].
      intros Hz. simpl. destruct (decide (w = z)) as [->|Hwz]; [done |].
      apply elem_of_cons in Hz as [-> | Hz]; [done |].
      exfalso. apply (Hn z w); [done |].
      do 2 apply sublist_skip. by apply singleton_sublist_l.
    + apply IH. intros x y Hxy Hs. apply (Hn x y Hxy).
      by apply sublist_cons.
Qed.

Lemma contiguous_sublist l k :
  l `sublist_of` k → contiguous k = true → contiguous l = true.
Proof.
  rewrite !contiguous_noReturn. intros Hlk Hk x y Hxy Hs.
  apply (Hk x y Hxy). by etrans.
Qed.
End Contiguous.

Lemma underOwnHeader_renderFrom (l : list Topic) (seen : gset string)
    (cur : option string) :
  contiguous (map group l) = true →
  (∀ c, c ∈ seen → Some c ∈ map group l →
        head (map group l) = Some (Some c) ∧ cur = Some (pillText c)) →
  underOwnHeader cur (renderFrom seen l) = true.
Proof.
  revert seen cur. induction l as [|t l IH]; intros seen cur Hc Hseen;
    [done |].
  rewrite fmap_cons in Hc, Hseen.
  apply contiguous_cons in Hc as [Hnext Hc]. cbn [renderFrom].
  destruct (group t) as [c|] eqn:Ht.
  - case_bool_decide as Hin.
    + destruct (Hseen c Hin) as [_ ->]; [by left |].
      cbn [underOwnHeader bound card]. rewrite Ht, bool_decide_true by done.
      apply IH; [done |]. intros d Hd Hdl.
      destruct (Hseen d Hd) as [[= ->] ?]; [by right |]. auto.
    + cbn [underOwnHeader bound card]. rewrite Ht, bool_decide_true by done.
      apply IH; [done |]. intros d Hd Hdl.
      apply elem_of_union in Hd as [->%elem_of_singleton | Hd]; [auto |].
      destruct (Hseen d Hd) as [[= ->] _]; [by right | done].
  - cbn [underOwnHeader bound card]. rewrite Ht. simpl.
    apply IH; [done |]. intros d Hd Hdl.
    destruct (Hseen d Hd) as [[=] _]. by right.
Qed.

Lemma cardsOf_buildCards (vm : list Topic) :
  cardsOf (buildCards vm) = map card vm.
Proof. rewrite buildCards_renderFrom. apply cardsOf_renderFrom. Qed.

Lemma groups_of_buildCards (vm : list Topic) :
  map (λ c, group (bound c)) (cardsOf (buildCards vm)) = map group vm.
Proof. rewrite cardsOf_buildCards, <- list_fmap_compose. done. Qed.

Lemma groupedTogether_buildCards (vm : list Topic) :
  groupedTogether (buildCards vm) = true ↔ contiguous (map group vm) = true.
Proof.
  unfold groupedTogether. rewrite groups_of_buildCards, andb_true_iff.
  split; [by intros [? _] |]. intros Hc. split; [done |].
  rewrite buildCards_renderFrom. apply underOwnHeader_renderFrom; [done |].
  set_solver.
Qed.

(** ** The embedded catalog *)

Lemma TOPICS_unscored : Forall (λ t, score t = None) TOPICS.
Proof. apply (bool_decide_unpack _). by vm_compute. Qed.

Lemma TOPICS_contiguous : contiguous (map group TOPICS) = true.
Proof. by vm_compute. Qed.

Lemma unscored_descending (l : list Topic) :
  Forall (λ t, score t = None) l → descending l.
Proof.
  unfold descending. induction 1 as [|t l Ht Hl IH]; constructor; [done |].
  eapply Forall_impl; [exact Hl |]. simpl. intros u Hu.
  unfold scoreOf. by rewrite Ht, Hu.
Qed.

Lemma filtered_TOPICS (f : string) :
  filtered TOPICS f = filter (λ t, keep (toLowerCase (trim f)) t) TOPICS.
Proof.
  unfold filtered. apply sort_id, unscored_descending.
  apply Forall_forall. intros t [_ Ht]%list_elem_of_filter.
  by apply (proj1 (Forall_forall _ _) TOPICS_unscored).
Qed.

(** C5, as amended.  The cards of a rendering are the Topics of the view
    model in the same order: nothing is regrouped.  So the cards of every
    category are together, under the header of that category, exactly when
    the Topics of every category are adjacent in the view model; and that
    is the case for every filter on the embedded catalog, whose categories
    are contiguous and whose entries have no score. *)
Theorem cards_grouped_as_in_view_model :
  (∀ vm, map bound (cardsOf (buildCards vm)) = vm)
  ∧ (∀ vm, groupedTogether (buildCards vm) = true ↔
           contiguous (map group vm) = true)
  ∧ (∀ f, groupedTogether (refresh TOPICS f) = true).
Proof.
  split_and!.
  - intros vm. rewrite cardsOf_buildCards, <- list_fmap_compose.
    apply list_fmap_id.
  - apply groupedTogether_buildCards.
  - intros f. unfold refresh. apply groupedTogether_buildCards.
    eapply contiguous_sublist; [| exact TOPICS_contiguous].
    apply fmap_sublist. rewrite filtered_TOPICS. apply sublist_filter.
Qed.

(** C5 fails on [scattered]: the card of [plan], of category Basic, is
    rendered after the header of State and apart from the card of [init]. *)
Lemma scattered_stays_scattered :
  map (λ n, match n with
            | SectionHeader h => h
            | CommandCard c => heading c
            end) (refresh scattered "")
  = ["# Basic"; "init"; "# State"; "state_list"; "plan"]
  ∧ groupedTogether (refresh scattered "") = false.
Proof. by vm_compute. Qed.

(** C6.  No two entries of [TOPICS] have the same [id]. *)
Theorem TOPICS_ids_unique : NoDup (map id TOPICS).
Proof. apply (bool_decide_unpack _). by vm_compute. Qed.

(** C9.  No entry of [TOPICS] has a score, so the comparator returns zero
    on every pair of entries; for every filter the view model is the kept
    entries in catalog order; and no card shows a score badge. *)
Theorem TOPICS_keep_catalog_order :
  Forall (λ t, score t = None) TOPICS
  ∧ Forall (λ a, Forall (λ b, compareFn a b = 0) TOPICS) TOPICS
  ∧ (∀ f, filtered TOPICS f =
          filter (λ t, keep (toLowerCase (trim f)) t) TOPICS)
  ∧ (∀ f, filtered TOPICS f `sublist_of` TOPICS)
  ∧ (∀ f, Forall (λ c, scoreBadge c = None) (cardsOf (refresh TOPICS f))).
Proof.
  split_and!.
  - exact TOPICS_unscored.
  - apply Forall_forall. intros a Ha. apply Forall_forall. intros b Hb.
    unfold compareFn, scoreOf.
    rewrite (proj1 (Forall_forall _ _) TOPICS_unscored a Ha).
    by rewrite (proj1 (Forall_forall _ _) TOPICS_unscored b Hb).
  - exact filtered_TOPICS.
  - intros f. rewrite filtered_TOPICS. apply sublist_filter.
  - intros f. unfold refresh. rewrite cardsOf_buildCards, Forall_fmap.
    apply Forall_forall. intros t Ht. simpl. unfold scoreHtml.
    assert (score t = None) as ->; [| done].
    apply (proj1 (Forall_forall _ _) TOPICS_unscored).
    eapply sublist_subseteq; [| exact Ht].
    rewrite filtered_TOPICS. apply sublist_filter.
Qed.

(** C1 fails on [TOPICS] for the filter [init initialize]: the entry [init]
    is kept, because its title ends in [init] and its description starts
    with [Initialize], yet none of its four fields contains the filter. *)
Lemma cross_field_match :
  ∃ t, t ∈ TOPICS ∧ id t = "init"
       ∧ t ∈ filtered TOPICS "init initialize"
       ∧ fieldContains "init initialize" t = false.
Proof.
  exists (default (bare "" "" None) (head TOPICS)). split_and!.
  - vm_compute. by left.
  - done.
  - replace (filtered TOPICS "init initialize")
      with [default (bare "" "" None) (head TOPICS)] by by vm_compute.
    by left.
  - by vm_compute.
Qed.

(** C4 fails on [unlabelled]: the first-seen categories are the empty
    string alone, and no header is rendered. *)
Lemma empty_category_opens_no_header :
  headers (buildCards unlabelled) = []
  ∧ map pillText (firstSeen [] (omap category unlabelled)) = ["# "].
Proof. by vm_compute. Qed.

(** ** The affordances *)

Lemma lookup_setInnerText (nodes : list Node) (i : nat) (c : Card) (l : string) :
  nodes !! i = Some (CommandCard c) →
  ∃ c', alter (setInnerText l) i nodes !! i = Some (CommandCard c')
        ∧ copyText c' = Some l.
Proof.
  intros Hi. rewrite list_lookup_alter_eq, Hi. simpl.
  eexists. split; reflexivity.
Qed.

Lemma lookup_fire_other (nodes : list Node) (tm : Timer) (i : nat) :
  target tm ≠ i → fire nodes tm !! i = nodes !! i.
Proof. intros. unfold fire. by rewrite list_lookup_alter_ne. Qed.



Lemma foldl_snoc {A B} (f : A → B → A) (a : A) (l : list B) (x : B) :
  foldl f a (l ++ [x]) = f (foldl f a l) x.
Proof. by rewrite foldl_app. Qed.

Lemma card_foldl_fire (tms : list Timer) (nodes : list Node) (i : nat)
    (c : Card) :
  nodes !! i = Some (CommandCard c) →
  ∃ c', foldl fire nodes tms !! i = Some (CommandCard c').
Proof.
  revert nodes c. induction tms as [|tm tms IH]; intros nodes c Hi.
  - by exists c.
  - simpl. destruct (decide (target tm = i)) as [<-|Hne].
    + destruct (lookup_setInnerText nodes _ c (label tm) Hi) as (c' & Hc' & _).
      by apply (IH _ c').
    + apply (IH _ c). by rewrite lookup_fire_other.
Qed.


Lemma sound_setInnerText (l : string) (n : Node) :
  sound n → sound (setInnerText l n).
Proof. by destruct n. Qed.

Lemma sound_toggleNode (n : Node) : sound n → sound (toggleNode n).
Proof.
  destruct n as [h|c]; [done |]. simpl. unfold toggleExample.
  intros [Hc Ht]. by destruct (String.eqb (exampleDisplay c) "none").
Qed.

Lemma sound_fire (nodes : list Node) (tm : Timer) :
  Forall sound nodes → Forall sound (fire nodes tm).
Proof.
  intros H. unfold fire. apply Forall_alter; [done |].
  intros n _ Hn. by apply sound_setInnerText.
Qed.

Lemma sound_foldl_fire (tms : list Timer) (nodes : list Node) :
  Forall sound nodes → Forall sound (foldl fire nodes tms).
Proof.
  revert nodes. induction tms as [|tm tms IH]; intros nodes H; [done |].
  simpl. by apply IH, sound_fire.
Qed.

Lemma sound_step (p p' : Page) (e : Event) :
  Forall sound (cards p) → step p e = Some p' → Forall sound (cards p').
Proof.
  intros H Hs. destruct e as [i|i|k ok|ms]; simpl in Hs.
  - destruct (cards p !! i) as [[h|c]|]; simplify_eq. simpl.
    apply Forall_alter; [done |]. intros n _ Hn. by apply sound_toggleNode.
  - destruct (cards p !! i) as [[h|c]|]; simplify_eq.
    destruct (codeBlock c); by simplify_eq.
  - destruct (writes p !! k) as [w|]; simplify_eq.
    unfold settle. destruct ok; simpl;
      (apply Forall_alter; [done |]); intros n _ Hn;
      by apply sound_setInnerText.
  - destruct (0 <=? ms); simplify_eq. simpl. by apply sound_foldl_fire.
Qed.

Lemma sound_run (es : list Event) (p p' : Page) :
  Forall sound (cards p) → run p es = Some p' → Forall sound (cards p').
Proof.
  revert p. induction es as [|e es IH]; intros p H Hr; simpl in Hr.
  - by simplify_eq.
  - destruct (step p e) as [q|] eqn:Hq; [| done].
    eapply IH; [| exact Hr]. by eapply sound_step.
Qed.

Lemma sound_renderFrom (l : list Topic) (seen : gset string) :
  Forall sound (renderFrom seen l).
Proof.
  revert seen. induction l as [|t l IH]; intros seen; simpl; [constructor |].
  destruct (group t); [case_bool_decide |]; repeat constructor; auto.
Qed.

Lemma sound_rendered (topics : list Topic) (f : string) (clip : option string)
    (es : list Event) (p : Page) :
  run (rendered topics f clip) es = Some p → Forall sound (cards p).
Proof.
  apply sound_run. simpl. unfold refresh.
  rewrite buildCards_renderFrom. apply sound_renderFrom.
Qed.

Lemma toggleExample_hidden (c : Card) :
  exampleDisplay c = "none" → toggleText c = "Show example" →
  toggleExample (toggleExample c) = c.
Proof.
  intros Hd Ht. unfold toggleExample. rewrite Hd. simpl.
  destruct c. simpl in *. by subst.
Qed.

(** C8.  On a page reached from a rendering, the example of a card is
    hidden as long as nothing happened; and when it is hidden the toggle
    reads [Show example], one click shows it, turns the label to
    [Hide example] and changes nothing else on the page, and a second
    click gives back the very page before the first. *)
Theorem toggle_twice_restores (topics : list Topic) (f : string)
    (clip : option string) (es : list Event) (p : Page) (i : nat) (c : Card) :
  run (rendered topics f clip) es = Some p →
  cards p !! i = Some (CommandCard c) →
  (es = [] → exampleDisplay c = "none")
  ∧ (exampleDisplay c = "none" →
     toggleText c = "Show example"
     ∧ ∃ p1 c1,
         step p (ToggleClick i) = Some p1
         ∧ cards p1 !! i = Some (CommandCard c1)
         ∧ exampleDisplay c1 = "block" ∧ toggleText c1 = "Hide example"
         ∧ codeBlock c1 = codeBlock c ∧ copyText c1 = copyText c
         ∧ (∀ j, j ≠ i → cards p1 !! j = cards p !! j)
         ∧ clipboard p1 = clipboard p ∧ writes p1 = writes p
         ∧ timers p1 = timers p ∧ now p1 = now p
         ∧ step p1 (ToggleClick i) = Some p).
Proof.
  intros Hrun Hi. split.
  - intros ->. simpl in Hrun. simplify_eq. simpl in Hi. unfold refresh in Hi.
    apply list_elem_of_lookup_2 in Hi.
    assert (c ∈ cardsOf (buildCards (filtered topics f))) as Hc.
    { unfold cardsOf. apply list_elem_of_omap. by exists (CommandCard c). }
    rewrite cardsOf_buildCards in Hc.
    by apply list_elem_of_fmap in Hc as (t & -> & _).
  - intros Hd.
    pose proof (sound_rendered _ _ _ _ _ Hrun) as Hs.
    eapply Forall_lookup_1 in Hs; [| exact Hi]. destruct Hs as [_ Ht].
    specialize (Ht Hd). split; [done |].
    eexists _, (toggleExample c). split_and!.
    + simpl. rewrite Hi. reflexivity.
    + simpl. by rewrite list_lookup_alter_eq, Hi.
    + unfold toggleExample. by rewrite Hd.
    + unfold toggleExample. by rewrite Hd.
    + unfold toggleExample. by rewrite Hd.
    + unfold toggleExample. by rewrite Hd.
    + intros j Hj. simpl. by rewrite list_lookup_alter_ne.
    + done.
    + done.
    + done.
    + done.
    + simpl. rewrite list_lookup_alter_eq, Hi. simpl.
      rewrite list_alter_alter_eq.
      destruct p as [cs cl ws ts n]. simpl in *. do 2 f_equal.
      apply list_eq. intros j. destruct (decide (j = i)) as [->|Hj].
      * rewrite list_lookup_alter_eq, Hi. simpl.
        by rewrite toggleExample_hidden.
      * by rewrite list_lookup_alter_ne.
Qed.



(** ** Instances on the sample catalogs *)

(** The scenario of three scored Topics: a blank filter lists them as
    plan, init, apply. *)
Lemma ranked_by_score :
  map id (filtered ranked "  ") = ["plan"; "init"; "apply"]
  ∧ filtered ranked "  " ≡ₚ ranked
  ∧ descending (filtered ranked "  ").
Proof.
  destruct (blank_filter_keeps_all ranked "  ") as (Heq & Hperm & Hdesc & _).
  - reflexivity.
  - split_and!; [| exact Hperm | exact Hdesc].
    rewrite Heq. reflexivity.
Defined.

(** Showing and hiding the example of the card of [single]. *)
Lemma single_toggle_round_trip :
  ∃ p1, step fresh (ToggleClick 1) = Some p1
        ∧ step p1 (ToggleClick 1) = Some fresh.
Proof.
  destruct (toggle_twice_restores single "" None [] fresh 1
              (card (default (bare "" "" None) (head single))))
    as [Hhidden Htwice].
  - reflexivity.
  - vm_compute. reflexivity.
  - destruct (Htwice (Hhidden eq_refl))
      as (_ & p1 & c1 & H1 & _ & _ & _ & _ & _ & _ & _ & _ & _ & _ & H2).
    exists p1. split; assumption.
Defined.

(** Two overlapping copies leave the button at [Copied] for good: the
    second one read [Copied] as the label to go back to. *)
Lemma overlapped_label :
  copyLabel fresh 1 = Some "Copy"
  ∧ copyLabel overlapped 1 = Some "Copied"
  ∧ timers overlapped = [] ∧ writes overlapped = [].
Proof. by vm_compute. Qed.


(** * Further properties *)

(** ** More on the filter *)

Lemma occursIn_empty (p : string) : occursIn p "" → p = "".
Proof.
  intros (a & b & H). destruct a; [| done]. by destruct p.
Qed.

Lemma keep_narrows (ff fg : string) (t : Topic) :
  occursIn ff fg → keep fg t = true → keep ff t = true.
Proof.
  rewrite !keep_spec. intros Hfg [-> | Hg].
  - left. by apply occursIn_empty.
  - right. by eapply occursIn_trans.
Qed.

Lemma filter_sublist_impl {A} (P Q : A → Prop)
    `{!∀ x, Decision (P x), !∀ x, Decision (Q x)} (l : list A) :
  (∀ x, P x → Q x) → filter P l `sublist_of` filter Q l.
Proof.
  intros HPQ. induction l as [|x l IH]; [done |].
  rewrite !filter_cons. destruct (decide (P x)) as [HP|HP].
  - rewrite decide_True by auto. by constructor.
  - case_decide; [by constructor | done].
Qed.

(** X1.  When the normalised filter of [f] occurs in the normalised filter
    of [g] (as when the user types on), what [g] finds is a subsequence of
    what [f] finds: a longer filter only takes Topics away and never
    reorders the rest. *)
Theorem longer_filter_narrows (topics : list Topic) (f g : string) :
  occursIn (toLowerCase (trim f)) (toLowerCase (trim g)) →
  filtered topics g `sublist_of` filtered topics f.
Proof.
  intros Hfg. rewrite !filtered_alt. apply filter_sublist_impl.
  intros t Ht. apply Is_true_true. apply Is_true_true in Ht.
  by eapply keep_narrows.
Qed.

Lemma isWhiteSpace_lowerChar (c : ascii) :
  isWhiteSpace (lowerChar c) = isWhiteSpace c.
Proof.
  destruct c as [[] [] [] [] [] [] [] []]; reflexivity.
Qed.

Lemma toLowerCase_trimStart (s : string) :
  toLowerCase (trimStart s) = trimStart (toLowerCase s).
Proof.
  induction s as [|c s IH]; [done |]. simpl.
  rewrite isWhiteSpace_lowerChar. by destruct (isWhiteSpace c).
Qed.

Lemma toLowerCase_trimEnd (s : string) :
  toLowerCase (trimEnd s) = trimEnd (toLowerCase s).
Proof.
  induction s as [|c s IH]; [done |]. simpl.
  rewrite <- IH, isWhiteSpace_lowerChar.
  destruct (trimEnd s); simpl; [by destruct (isWhiteSpace c) | done].
Qed.

Lemma toLowerCase_trim (s : string) :
  toLowerCase (trim s) = trim (toLowerCase s).
Proof. unfold trim. by rewrite toLowerCase_trimEnd, toLowerCase_trimStart. Qed.

Lemma lowerChar_idemp (c : ascii) : lowerChar (lowerChar c) = lowerChar c.
Proof.
  destruct c as [[] [] [] [] [] [] [] []]; reflexivity.
Qed.

Lemma toLowerCase_idemp (s : string) :
  toLowerCase (toLowerCase s) = toLowerCase s.
Proof.
  induction s as [|c s IH]; [done |]. simpl. by rewrite lowerChar_idemp, IH.
Qed.

Lemma trimEnd_idemp (s : string) : trimEnd (trimEnd s) = trimEnd s.
Proof.
  induction s as [|c s IH]; [done |]. simpl.
  destruct (trimEnd s) as [|d r] eqn:Hr.
  - destruct (isWhiteSpace c) eqn:Hc; [done |]. simpl. by rewrite Hc.
  - simpl. simpl in IH. by rewrite IH.
Qed.

(** What [trimStart] leaves starts with a character that is not white. *)
Lemma trimStart_head (s : string) :
  match trimStart s with
  | EmptyString => True
  | String c _ => isWhiteSpace c = false
  end.
Proof.
  induction s as [|c s IH]; [done |]. simpl.
  destruct (isWhiteSpace c) eqn:Hc; [done |]. simpl. done.
Qed.

Lemma trimStart_fixed (s : string) :
  match s with
  | EmptyString => True
  | String c _ => isWhiteSpace c = false
  end → trimStart s = s.
Proof. destruct s as [|c s]; [done |]. simpl. by intros ->. Qed.

Lemma trimEnd_head (s : string) :
  match s with
  | EmptyString => True
  | String c _ => isWhiteSpace c = false
  end →
  match trimEnd s with
  | EmptyString => True
  | String c _ => isWhiteSpace c = false
  end.
Proof.
  destruct s as [|c s]; [done |]. simpl. intros Hc.
  destruct (trimEnd s); [by rewrite Hc |]; done.
Qed.

Lemma trim_idemp (s : string) : trim (trim s) = trim s.
Proof.
  unfold trim. rewrite (trimStart_fixed (trimEnd (trimStart s))).
  - apply trimEnd_idemp.
  - apply trimEnd_head, trimStart_head.
Qed.

Lemma trimStart_blank_app (a s : string) :
  blank a = true → trimStart (a +:+ s) = trimStart s.
Proof.
  induction a as [|c a IH]; [done |]. simpl.
  intros [Hc Ha]%andb_true_iff. rewrite Hc. auto.
Qed.

Lemma trimEnd_blank (b : string) : blank b = true → trimEnd b = "".
Proof.
  induction b as [|c b IH]; [done |]. simpl.
  intros [Hc Hb]%andb_true_iff. by rewrite IH, Hc.
Qed.

Lemma trimEnd_app_blank (s b : string) :
  blank b = true → trimEnd (s +:+ b) = trimEnd s.
Proof.
  intros Hb. induction s as [|c s IH].
  - simpl. by apply trimEnd_blank.
  - rewrite append_cons. simpl. by rewrite IH.
Qed.

Lemma trimStart_app_blank (s b : string) :
  blank b = true → trimEnd (trimStart (s +:+ b)) = trimEnd (trimStart s).
Proof.
  intros Hb. induction s as [|c s IH].
  - simpl. rewrite trimStart_blank by done. done.
  - rewrite append_cons. simpl. destruct (isWhiteSpace c); [done |].
    rewrite <- append_cons. by apply trimEnd_app_blank.
Qed.

Lemma trim_padding (a s b : string) :
  blank a = true → blank b = true → trim (a +:+ s +:+ b) = trim s.
Proof.
  intros Ha Hb. unfold trim.
  by rewrite trimStart_blank_app, trimStart_app_blank.
Qed.

(** X2.  The result does not change when white space is put around the
    filter, when the filter is lower-cased, or when it is trimmed
    beforehand. *)
Theorem filter_ignores_case_and_padding (topics : list Topic)
    (a f b : string) :
  blank a = true → blank b = true →
  filtered topics (a +:+ f +:+ b) = filtered topics f
  ∧ filtered topics (toLowerCase f) = filtered topics f
  ∧ filtered topics (trim f) = filtered topics f.
Proof.
  intros Ha Hb. unfold filtered. split_and!.
  - by rewrite trim_padding.
  - by rewrite <- toLowerCase_trim, toLowerCase_idemp.
  - by rewrite trim_idemp.
Qed.

(** ** More on the renderer *)

Lemma pillText_eq (a b : string) : pillText a = pillText b → a = b.
Proof. unfold pillText. intros H. by simplify_eq. Qed.

Lemma elem_of_headers (vm : list Topic) (h : string) :
  h ∈ headers (buildCards vm) ↔
    ∃ t g, t ∈ vm ∧ group t = Some g ∧ h = pillText g.
Proof.
  rewrite buildCards_renderFrom, (headers_renderFrom vm ∅ []) by set_solver.
  rewrite list_elem_of_fmap. split.
  - intros (g & -> & Hg). apply firstSeen_elem in Hg as [Hg _].
    apply list_elem_of_omap in Hg as (t & Ht & Hgt). by exists t, g.
  - intros (t & g & Ht & Hgt & ->). exists g. split; [done |].
    apply firstSeen_elem. split; [| set_solver].
    apply list_elem_of_omap. by exists t.
Qed.

(** X3.  A section header is rendered exactly when some Topic of the
    catalog that the filter keeps has that non-empty category: a category
    without a kept Topic has no header, and every header is the pill of
    the category of a rendered card. *)
Theorem header_iff_kept_card (topics : list Topic) (f h : string) :
  h ∈ headers (refresh topics f) ↔
    ∃ t g, t ∈ topics ∧ keep (toLowerCase (trim f)) t = true
           ∧ group t = Some g ∧ h = pillText g.
Proof.
  unfold refresh. rewrite elem_of_headers. split.
  - intros (t & g & Hin & Hg & ->).
    destruct (proj1 (elem_of_filtered _ _ _) Hin) as [Ht Hk].
    exists t, g. split_and!; done.
  - intros (t & g & Ht & Hk & Hg & ->). exists t, g.
    split_and!; [| done | done]. by apply elem_of_filtered.
Qed.

Lemma headers_header (h : string) (l : list Node) :
  headers (SectionHeader h :: l) = h :: headers l.
Proof. reflexivity. Qed.

Lemma headers_card (c : Card) (l : list Node) :
  headers (CommandCard c :: l) = headers l.
Proof. reflexivity. Qed.

Lemma length_renderFrom (l : list Topic) (seen : gset string) :
  length (renderFrom seen l) =
    (length l + length (headers (renderFrom seen l)))%nat.
Proof.
  revert seen. induction l as [|t l IH]; intros seen; [done |].
  cbn [renderFrom]. destruct (group t) as [g|]; [case_bool_decide |];
    rewrite ?headers_header, ?headers_card; cbn [length];
    rewrite IH; lia.
Qed.

Lemma length_firstSeen (cs seen : list string) :
  (length (firstSeen seen cs) ≤ length cs)%nat.
Proof.
  revert seen. induction cs as [|c cs IH]; intros seen; [done |].
  cbn [firstSeen length]. case_bool_decide; cbn [length].
  - specialize (IH seen). lia.
  - specialize (IH (c :: seen)). lia.
Qed.

Lemma length_groups (vm : list Topic) :
  (length (omap group vm) ≤ length vm)%nat.
Proof.
  induction vm as [|t vm IH]; [done |]. cbn [omap list_omap length].
  destruct (group t); cbn [length]; lia.
Qed.

(** X4.  [buildCards] appends one card per Topic of the view model and one
    header per distinct non-empty category, and nothing else; there are
    never more headers than cards. *)
Theorem children_count (vm : list Topic) :
  length (cardsOf (buildCards vm)) = length vm
  ∧ length (headers (buildCards vm)) =
      length (firstSeen [] (omap group vm))
  ∧ length (buildCards vm) =
      (length vm + length (firstSeen [] (omap group vm)))%nat
  ∧ (length (headers (buildCards vm)) ≤ length vm)%nat.
Proof.
  assert (length (headers (buildCards vm)) =
          length (firstSeen [] (omap group vm))) as Hh.
  { rewrite buildCards_renderFrom, (headers_renderFrom vm ∅ []) by set_solver.
    by rewrite length_fmap. }
  split_and!.
  - by rewrite cardsOf_buildCards, length_fmap.
  - done.
  - rewrite <- Hh, buildCards_renderFrom. apply length_renderFrom.
  - rewrite Hh. etrans; [apply length_firstSeen | apply length_groups].
Qed.

Lemma header_then_card_from (l : list Topic) (seen : gset string)
    (i : nat) (h : string) :
  renderFrom seen l !! i = Some (SectionHeader h) →
  ∃ t g, renderFrom seen l !! S i = Some (CommandCard (card t))
         ∧ t ∈ l ∧ group t = Some g ∧ h = pillText g ∧ g ∉ seen.
Proof.
  revert seen i. induction l as [|t l IH]; intros seen i Hi; [done |].
  cbn [renderFrom] in *. destruct (group t) as [g|] eqn:Hg.
  - case_bool_decide as Hseen.
    + destruct i as [|i]; [done |]. simpl in Hi.
      destruct (IH _ _ Hi) as (u & g' & Hu & Hin & Hg' & -> & Hn).
      exists u, g'. split_and!; try done. by right.
    + destruct i as [|[|i]]; simpl in Hi.
      * simplify_eq. exists t, g. split_and!; try done. by left.
      * done.
      * destruct (IH _ _ Hi) as (u & g' & Hu & Hin & Hg' & -> & Hn).
        exists u, g'. split_and!; try done; [by right | set_solver].
  - destruct i as [|i]; [done |]. simpl in Hi.
    destruct (IH _ _ Hi) as (u & g' & Hu & Hin & Hg' & -> & Hn).
    exists u, g'. split_and!; try done. by right.
Qed.

(** X5.  A section header is never the last child and never followed by
    another header: the next child is the card of a Topic of the view
    model that has the category of the header. *)
Theorem header_then_card (vm : list Topic) (i : nat) (h : string) :
  buildCards vm !! i = Some (SectionHeader h) →
  ∃ t g, buildCards vm !! S i = Some (CommandCard (card t))
         ∧ t ∈ vm ∧ group t = Some g ∧ h = pillText g.
Proof.
  rewrite buildCards_renderFrom. intros Hi.
  destruct (header_then_card_from _ _ _ _ Hi) as (t & g & ? & ? & ? & ? & _).
  by exists t, g.
Qed.

Lemma scoreBadge_card (t : Topic) :
  default 0 (scoreBadge (card t)) = scoreOf t.
Proof.
  unfold scoreOf. simpl. unfold scoreHtml. destruct (score t) as [z|]; [| done].
  simpl. destruct (Z.eqb_spec z 0) as [->|]; done.
Qed.

(** X6.  A card has no score badge exactly when its Topic sorts as score
    zero ([t.score ? ...] in [buildCards] and [t.score||0] in [refresh]
    agree), and down the rendered page the badges never increase, a
    missing badge counting as zero. *)
Theorem badges_descend (topics : list Topic) (f : string) :
  (∀ t, scoreBadge (card t) = None ↔ scoreOf t = 0)
  ∧ StronglySorted (λ a b, default 0 (scoreBadge b) ≤ default 0 (scoreBadge a))
      (cardsOf (refresh topics f)).
Proof.
  split.
  - intros t. rewrite <- scoreBadge_card. simpl. unfold scoreHtml.
    destruct (score t) as [z|]; [| done]. simpl.
    destruct (Z.eqb_spec z 0) as [->|]; simpl; [done |]. split; [done | lia].
  - unfold refresh. rewrite cardsOf_buildCards.
    assert (descending (filtered topics f)) as H by apply sort_descending.
    induction H as [|t l Hl IH Ht]; [constructor |].
    rewrite fmap_cons. constructor; [done |].
    apply Forall_fmap. eapply Forall_impl; [exact Ht |].
    intros u Hu.
    change (default 0 (scoreBadge (card u)) ≤ default 0 (scoreBadge (card t))).
    by rewrite !scoreBadge_card.
Qed.

(** ** Invariants of the page *)

Lemma codeOf_setInnerText (l : string) (n : Node) :
  codeOf (setInnerText l n) = codeOf n.
Proof. by destruct n. Qed.

Lemma codeOf_toggleNode (n : Node) : codeOf (toggleNode n) = codeOf n.
Proof.
  destruct n as [h|c]; [done |]. simpl. unfold toggleExample.
  by destruct (String.eqb (exampleDisplay c) "none").
Qed.

Lemma codeAt_alter (f : Node → Node) (nodes : list Node) (i j : nat) :
  (∀ n, codeOf (f n) = codeOf n) →
  codeAt (alter f i nodes) j = codeAt nodes j.
Proof.
  intros Hf. unfold codeAt. destruct (decide (i = j)) as [->|Hij].
  - rewrite list_lookup_alter_eq. destruct (nodes !! j); simpl; [apply Hf | done].
  - by rewrite list_lookup_alter_ne.
Qed.

Lemma codeAt_fire (nodes : list Node) (tm : Timer) (j : nat) :
  codeAt (fire nodes tm) j = codeAt nodes j.
Proof. apply codeAt_alter, codeOf_setInnerText. Qed.

Lemma codeAt_foldl_fire (tms : list Timer) (nodes : list Node) (j : nat) :
  codeAt (foldl fire nodes tms) j = codeAt nodes j.
Proof.
  revert nodes. induction tms as [|tm tms IH]; intros nodes; [done |].
  simpl. by rewrite IH, codeAt_fire.
Qed.

Lemma tidy_setInnerText (vm : list Topic) (l : string) (n : Node) :
  l ∈ labels → is_Some (codeOf n) → tidy vm n → tidy vm (setInnerText l n).
Proof.
  intros Hl Hcode. destruct n as [h|c]; [done |]. simpl in *.
  intros (Hb & Hc & _ & Hd). done.
Qed.

Lemma tidy_toggleNode (vm : list Topic) (n : Node) :
  tidy vm n → tidy vm (toggleNode n).
Proof.
  destruct n as [h|c]; [done |]. simpl. unfold toggleExample.
  intros (Hb & Hc & Hl & Hd).
  destruct (String.eqb_spec (exampleDisplay c) "none") as [He|He]; simpl;
    split_and!; try done; [by right | by left].
Qed.

Lemma tidy_alter_label (vm : list Topic) (l : string) (nodes : list Node)
    (i : nat) :
  l ∈ labels → is_Some (codeAt nodes i) →
  Forall (tidy vm) nodes → Forall (tidy vm) (alter (setInnerText l) i nodes).
Proof.
  intros Hl Hi H. apply Forall_alter; [done |]. intros n Hn Ht.
  apply tidy_setInnerText; [done | | done].
  unfold codeAt in Hi. by rewrite Hn in Hi.
Qed.

Lemma tidy_foldl_fire (vm : list Topic) (tms : list Timer) (nodes : list Node) :
  Forall (λ tm, is_Some (codeAt nodes (target tm)) ∧ label tm ∈ labels) tms →
  Forall (tidy vm) nodes → Forall (tidy vm) (foldl fire nodes tms).
Proof.
  revert nodes. induction tms as [|tm tms IH]; intros nodes Htms H; [done |].
  apply Forall_cons in Htms as [[Hc Hl] Htms]. simpl. apply IH.
  - eapply Forall_impl; [exact Htms |]. intros t [? ?].
    by rewrite codeAt_fire.
  - by apply tidy_alter_label.
Qed.

(** The label a copy button shows, on a tidy page. *)
Lemma copyLabel_tidy (vm : list Topic) (p : Page) (i : nat) (code : string) :
  Forall (tidy vm) (cards p) → codeAt (cards p) i = Some code →
  ∃ l, copyLabel p i = Some l ∧ l ∈ labels.
Proof.
  intros H Hi. unfold codeAt in Hi. unfold copyLabel.
  destruct (cards p !! i) as [[h|c]|] eqn:Hn; try done. simpl in Hi.
  eapply Forall_lookup_1 in H; [| exact Hn]. destruct H as (_ & _ & Hl & _).
  destruct (copyText c) as [l|]; [| congruence]. exists l. by destruct Hl.
Qed.

Lemma coherent_step (vm : list Topic) (clip : option string) (p p' : Page)
    (e : Event) :
  coherent vm clip p → step p e = Some p' → coherent vm clip p'.
Proof.
  intros (Hcards & Hwrites & Htimers & Hclip) Hs.
  destruct e as [i|i|k ok|ms]; simpl in Hs.
  - destruct (cards p !! i) as [[h|c]|]; simplify_eq. split_and!; simpl.
    + apply Forall_alter; [done |]. intros n _ Hn. by apply tidy_toggleNode.
    + eapply Forall_impl; [exact Hwrites |]. intros w Hw. simpl in Hw.
      rewrite codeAt_alter; [done | apply codeOf_toggleNode].
    + eapply Forall_impl; [exact Htimers |]. intros tm Htm. simpl in Htm.
      rewrite codeAt_alter; [done | apply codeOf_toggleNode].
    + destruct Hclip as [? | (j & code & Hj & ?)]; [by left | right].
      exists j, code. rewrite codeAt_alter; [done | apply codeOf_toggleNode].
  - destruct (cards p !! i) as [[h|c]|] eqn:Hn; simplify_eq.
    destruct (codeBlock c) as [code|] eqn:Hcode; simplify_eq.
    split_and!; simpl; try done.
    apply Forall_app. split; [done |]. constructor; [| constructor].
    simpl. unfold codeAt. by rewrite Hn.
  - destruct (writes p !! k) as [w|] eqn:Hw; simplify_eq.
    pose proof (Forall_lookup_1 _ _ _ _ Hwrites Hw) as Hcode. simpl in Hcode.
    destruct (copyLabel_tidy vm p (button w) (text w) Hcards Hcode)
      as (l & Hl & Hlab).
    assert (Forall (λ w0, codeAt (cards p) (button w0) = Some (text w0))
              (delete k (writes p))) as Hdel.
    { eapply Forall_forall. intros w0 Hw0.
      eapply (proj1 (Forall_forall _ _) Hwrites).
      eapply sublist_subseteq; [apply sublist_delete | exact Hw0]. }
    unfold settle. destruct ok; split_and!; simpl.
    + apply tidy_alter_label; [set_solver | by rewrite Hcode | done].
    + eapply Forall_impl; [exact Hdel |]. intros w0 Hw0. simpl in Hw0.
      rewrite codeAt_alter; [done | apply codeOf_setInnerText].
    + apply Forall_app. split.
      * eapply Forall_impl; [exact Htimers |]. intros tm Htm. simpl in Htm.
        rewrite codeAt_alter; [done | apply codeOf_setInnerText].
      * constructor; [| constructor]. simpl.
        rewrite codeAt_alter, Hcode, Hl by apply codeOf_setInnerText.
        split_and!; [done | done | unfold delay; lia].
    + right. exists (button w), (text w).
      rewrite codeAt_alter; [done | apply codeOf_setInnerText].
    + apply tidy_alter_label; [set_solver | by rewrite Hcode | done].
    + eapply Forall_impl; [exact Hdel |]. intros w0 Hw0. simpl in Hw0.
      rewrite codeAt_alter; [done | apply codeOf_setInnerText].
    + apply Forall_app. split.
      * eapply Forall_impl; [exact Htimers |]. intros tm Htm. simpl in Htm.
        rewrite codeAt_alter; [done | apply codeOf_setInnerText].
      * constructor; [| constructor]. simpl.
        rewrite codeAt_alter, Hcode by apply codeOf_setInnerText.
        split_and!; [done | set_solver | unfold delay; lia].
    + destruct Hclip as [? | (j & code & Hj & ?)]; [by left | right].
      exists j, code. rewrite codeAt_alter; [done | apply codeOf_setInnerText].
  - destruct (Z.leb_spec 0 ms); simplify_eq. split_and!; simpl.
    + apply tidy_foldl_fire; [| done].
      apply Forall_forall. intros tm [_ Htm]%list_elem_of_filter.
      eapply Forall_forall in Htimers; [| exact Htm]. simpl in Htimers.
      by destruct Htimers as (? & ? & _).
    + eapply Forall_impl; [exact Hwrites |]. intros w Hw. simpl in Hw.
      by rewrite codeAt_foldl_fire.
    + apply Forall_forall. intros tm [_ Htm]%list_elem_of_filter.
      eapply Forall_forall in Htimers; [| exact Htm]. simpl in Htimers.
      destruct Htimers as (? & ? & ?). rewrite codeAt_foldl_fire.
      split_and!; [done | done | lia].
    + destruct Hclip as [? | (j & code & Hj & ?)]; [by left | right].
      exists j, code. by rewrite codeAt_foldl_fire.
Qed.

Lemma coherent_run (vm : list Topic) (clip : option string) (es : list Event)
    (p p' : Page) :
  coherent vm clip p → run p es = Some p' → coherent vm clip p'.
Proof.
  revert p. induction es as [|e es IH]; intros p H Hr; simpl in Hr.
  - by simplify_eq.
  - destruct (step p e) as [q|] eqn:Hq; [| done].
    eapply IH; [| exact Hr]. by eapply coherent_step.
Qed.

Lemma tidy_renderFrom (vm l : list Topic) (seen : gset string) :
  l ⊆ vm → Forall (tidy vm) (renderFrom seen l).
Proof.
  revert seen. induction l as [|t l IH]; intros seen Hl; [constructor |].
  assert (tidy vm (CommandCard (card t))) as Ht.
  { simpl. split_and!; [set_solver | done | | by left].
    destruct (exampleText t); [| done]. split; [set_solver | done]. }
  assert (l ⊆ vm) as Hl' by set_solver.
  cbn [renderFrom]. destruct (group t); [case_bool_decide |].
  - constructor; [exact Ht | by apply IH].
  - constructor; [done |]. constructor; [exact Ht | by apply IH].
  - constructor; [exact Ht | by apply IH].
Qed.

Lemma coherent_rendered (topics : list Topic) (f : string)
    (clip : option string) (es : list Event) (p : Page) :
  run (rendered topics f clip) es = Some p →
  coherent (filtered topics f) clip p.
Proof.
  apply coherent_run. split_and!; simpl; [| constructor | constructor | by left].
  unfold refresh. rewrite buildCards_renderFrom. by apply tidy_renderFrom.
Qed.

(** ** What holds on every reachable page *)

Lemma tidy_lookup (topics : list Topic) (f : string) (clip : option string)
    (es : list Event) (p : Page) (i : nat) (c : Card) :
  run (rendered topics f clip) es = Some p →
  cards p !! i = Some (CommandCard c) →
  tidy (filtered topics f) (CommandCard c).
Proof.
  intros Hrun Hi. destruct (coherent_rendered _ _ _ _ _ Hrun) as [H _].
  by eapply Forall_lookup_1 in H.
Qed.

Lemma exampleText_is_Some (t : Topic) :
  is_Some (exampleText t) ↔ present (cmd t) || present (example t) = true.
Proof.
  unfold exampleText. destruct (present (cmd t) || present (example t)).
  - split; [done | by eexists].
  - split; [by intros [? ?] | done].
Qed.

(** X7.  On a page reached from a rendering, a card has a copy button,
    and a click on it starts a clipboard write, exactly when its Topic has
    a non-empty command or a non-empty example. *)
Theorem copy_button_iff_snippet (topics : list Topic) (f : string)
    (clip : option string) (es : list Event) (p : Page) (i : nat) (c : Card) :
  run (rendered topics f clip) es = Some p →
  cards p !! i = Some (CommandCard c) →
  (is_Some (copyText c) ↔
     present (cmd (bound c)) || present (example (bound c)) = true)
  ∧ (is_Some (step p (CopyClick i)) ↔
     present (cmd (bound c)) || present (example (bound c)) = true).
Proof.
  intros Hrun Hi.
  destruct (tidy_lookup _ _ _ _ _ _ _ Hrun Hi) as (_ & Hcode & Hl & _).
  rewrite <- exampleText_is_Some, <- Hcode. split.
  - destruct (copyText c) as [l|].
    + destruct Hl as [_ Hs]. split; [done | by eexists].
    + rewrite Hl. split; by intros [? ?].
  - simpl. rewrite Hi.
    destruct (codeBlock c); split; try done; try (by eexists);
      by intros [? ?].
Qed.


(** X9.  On a page reached from a rendering, a copy button reads [Copy],
    [Copied] or [Copy failed], and so does every label a pending
    acknowledgement will put back. *)
Theorem copy_label_vocabulary (topics : list Topic) (f : string)
    (clip : option string) (es : list Event) (p : Page) :
  run (rendered topics f clip) es = Some p →
  (∀ i c, cards p !! i = Some (CommandCard c) →
          copyText c = None ∨ copyText c = Some "Copy"
          ∨ copyText c = Some "Copied" ∨ copyText c = Some "Copy failed")
  ∧ Forall (λ tm, label tm = "Copy" ∨ label tm = "Copied"
                  ∨ label tm = "Copy failed") (timers p).
Proof.
  intros Hrun. split.
  - intros i c Hi.
    destruct (tidy_lookup _ _ _ _ _ _ _ Hrun Hi) as (_ & _ & Hl & _).
    destruct (copyText c) as [l|]; [| by left]. right.
    destruct Hl as [Hl _]. unfold labels in Hl. set_unfold in Hl.
    naive_solver.
  - destruct (coherent_rendered _ _ _ _ _ Hrun) as (_ & _ & Ht & _).
    eapply Forall_impl; [exact Ht |]. intros tm (_ & Hl & _).
    unfold labels in Hl. set_unfold in Hl. naive_solver.
Qed.

(** X10.  On a page reached from a rendering, every pending
    acknowledgement is due within 1200 ms; once 1200 ms have passed none
    is pending, and that wait changes neither the clipboard nor the
    pending writes. *)
Theorem acknowledgements_expire (topics : list Topic) (f : string)
    (clip : option string) (es : list Event) (p : Page) :
  run (rendered topics f clip) es = Some p →
  Forall (λ tm, due tm ≤ now p + 1200) (timers p)
  ∧ ∃ p', step p (Elapse 1200) = Some p'
          ∧ timers p' = [] ∧ writes p' = writes p
          ∧ clipboard p' = clipboard p.
Proof.
  intros Hrun.
  destruct (coherent_rendered _ _ _ _ _ Hrun) as (_ & _ & Ht & _).
  assert (Forall (λ tm, due tm ≤ now p + 1200) (timers p)) as Hdue.
  { eapply Forall_impl; [exact Ht |]. by intros tm (_ & _ & ?). }
  split; [done |]. eexists. split; [reflexivity |]. simpl.
  split_and!; try done. clear Ht.
  induction Hdue as [|tm tms Htm Htms IH]; [done |].
  rewrite filter_cons, decide_False by tauto. exact IH.
Qed.

Lemma lookup_fire_last (tms : list Timer) (tm : Timer) (nodes : list Node)
    (c : Card) :
  nodes !! target tm = Some (CommandCard c) →
  ∃ c', foldl fire nodes (tms ++ [tm]) !! target tm = Some (CommandCard c')
        ∧ copyText c' = Some (label tm).
Proof.
  intros Hi. rewrite foldl_snoc. unfold fire at 1.
  destruct (card_foldl_fire tms nodes _ c Hi) as [c1 Hc1].
  by apply (lookup_setInnerText _ _ c1).
Qed.

(** X11.  When a copy button is clicked twice before either write settles
    and both writes succeed, the label ends at [Copied] after the delay,
    whatever it was before: the second success reads [Copied] as the label
    to go back to. *)
Theorem overlapping_copies_stick (p : Page) (i : nat) (c : Card)
    (code prior : string) :
  cards p !! i = Some (CommandCard c) →
  codeBlock c = Some code →
  copyText c = Some prior →
  ∃ p',
    run p [CopyClick i; CopyClick i;
           WriteSettled (length (writes p)) true;
           WriteSettled (length (writes p)) true; Elapse 1200] = Some p'
    ∧ copyLabel p' i = Some "Copied"
    ∧ clipboard p' = Some code.
Proof.
  intros Hi Hcode Hprior. set (n := length (writes p)).
  set (w := mkWrite code i).
  set (p1 := {| cards := cards p; clipboard := clipboard p;
                writes := writes p ++ [w]; timers := timers p;
                now := now p |}).
  set (p2 := {| cards := cards p; clipboard := clipboard p;
                writes := writes p ++ [w; w]; timers := timers p;
                now := now p |}).
  set (p3 := settle p2 n w true).
  set (p4 := settle p3 n w true).
  assert (step p (CopyClick i) = Some p1) as H1.
  { simpl. by rewrite Hi, Hcode. }
  assert (step p1 (CopyClick i) = Some p2) as H2.
  { simpl. rewrite Hi, Hcode. unfold p2. by rewrite <- app_assoc. }
  assert (step p2 (WriteSettled n true) = Some p3) as H3.
  { cbn [step p2 writes].
    by rewrite (list_lookup_middle (writes p) [w] w n eq_refl). }
  assert (writes p3 = writes p ++ [w]) as Hw3.
  { unfold p3, p2, settle. cbn [writes]. apply delete_middle. }
  assert (step p3 (WriteSettled n true) = Some p4) as H4.
  { cbn [step]. rewrite Hw3.
    by rewrite (list_lookup_middle (writes p) [] w n eq_refl). }
  destruct (lookup_setInnerText (cards p) i c "Copied" Hi)
    as (c3 & Hc3 & Hl3).
  assert (copyLabel p3 i = Some "Copied") as Hlab3.
  { unfold copyLabel. simpl. by rewrite Hc3. }
  assert (cards p3 !! i = Some (CommandCard c3)) as Hc3' by done.
  destruct (lookup_setInnerText (cards p3) i c3 "Copied" Hc3')
    as (c4 & Hc4 & Hl4).
  assert (timers p4 =
          (timers p ++ [mkTimer (now p + 1200) i prior])
          ++ [mkTimer (now p + 1200) i "Copied"]) as Ht4.
  { unfold p4, settle. cbn [timers now]. change (button w) with i.
    rewrite Hlab3. unfold p3, settle. cbn [timers now].
    change (button w) with i. unfold copyLabel, p2. cbn [cards].
    by rewrite Hi, Hprior. }
  eexists. cbn [run]. rewrite H1, H2, H3, H4. split; [reflexivity |].
  split; [| done]. unfold copyLabel. cbn [cards]. rewrite Ht4.
  rewrite filter_app, (filter_cons _ (mkTimer _ _ "Copied")), filter_nil.
  rewrite decide_True by (simpl; lia).
  destruct (lookup_fire_last
              (filter (λ tm, due tm ≤ now p4 + 1200)
                 (timers p ++ [mkTimer (now p + 1200) i prior]))
              (mkTimer (now p + 1200) i "Copied") (cards p4) c4 Hc4)
    as (c5 & Hc5 & Hl5).
  cbn [target] in Hc5. rewrite Hc5. done.
Qed.

(** ** Toggles *)

Lemma toggleExample_twice (c : Card) :
  (exampleDisplay c = "none" ∧ toggleText c = "Show example")
  ∨ (exampleDisplay c = "block" ∧ toggleText c = "Hide example") →
  toggleExample (toggleExample c) = c.
Proof.
  unfold toggleExample. intros [[Hd Ht] | [Hd Ht]]; rewrite Hd; simpl;
    destruct c; simpl in *; by subst.
Qed.

(** X12.  On a page reached from a rendering, two clicks on the toggle of
    a card give back the same page whether the example was hidden or
    shown, and one click touches neither the copy label of the card, nor
    the clipboard, nor what is pending. *)
Theorem toggle_twice_anywhere (topics : list Topic) (f : string)
    (clip : option string) (es : list Event) (p : Page) (i : nat) (c : Card) :
  run (rendered topics f clip) es = Some p →
  cards p !! i = Some (CommandCard c) →
  run p [ToggleClick i; ToggleClick i] = Some p
  ∧ ∃ p1, step p (ToggleClick i) = Some p1
          ∧ copyLabel p1 i = copyLabel p i
          ∧ clipboard p1 = clipboard p ∧ writes p1 = writes p
          ∧ timers p1 = timers p.
Proof.
  intros Hrun Hi.
  destruct (tidy_lookup _ _ _ _ _ _ _ Hrun Hi) as (_ & _ & _ & Hd).
  split.
  - cbn [run step]. rewrite Hi. cbn [cards].
    rewrite list_lookup_alter_eq, Hi. cbn [fmap option_fmap option_map toggleNode].
    rewrite list_alter_alter_eq.
    destruct p as [cs cl ws ts n]. cbn [cards clipboard writes timers now] in *.
    do 2 f_equal. apply list_eq. intros j.
    destruct (decide (j = i)) as [->|Hj].
    + rewrite list_lookup_alter_eq, Hi. simpl. by rewrite toggleExample_twice.
    + by rewrite list_lookup_alter_ne.
  - eexists. cbn [step]. rewrite Hi. split; [reflexivity |].
    split_and!; try done. unfold copyLabel. cbn [cards].
    rewrite list_lookup_alter_eq, Hi. simpl. unfold toggleExample.
    by destruct (String.eqb (exampleDisplay c) "none").
Qed.

(** X13.  The toggles of two different cards do not interact: clicking
    them in either order gives the same page, each of the two cards
    toggled once and every other child as it was. *)
Theorem toggles_commute (p : Page) (i j : nat) (c d : Card) :
  i ≠ j →
  cards p !! i = Some (CommandCard c) →
  cards p !! j = Some (CommandCard d) →
  run p [ToggleClick i; ToggleClick j] = run p [ToggleClick j; ToggleClick i]
  ∧ ∃ p', run p [ToggleClick i; ToggleClick j] = Some p'
          ∧ cards p' !! i = Some (CommandCard (toggleExample c))
          ∧ cards p' !! j = Some (CommandCard (toggleExample d))
          ∧ ∀ k, k ≠ i → k ≠ j → cards p' !! k = cards p !! k.
Proof.
  intros Hij Hi Hj.
  assert (run p [ToggleClick i; ToggleClick j] =
          Some {| cards := alter toggleNode j (alter toggleNode i (cards p));
                  clipboard := clipboard p; writes := writes p;
                  timers := timers p; now := now p |}) as Hrun1.
  { cbn [run step]. rewrite Hi. cbn [cards].
    by rewrite list_lookup_alter_ne, Hj. }
  assert (run p [ToggleClick j; ToggleClick i] =
          Some {| cards := alter toggleNode i (alter toggleNode j (cards p));
                  clipboard := clipboard p; writes := writes p;
                  timers := timers p; now := now p |}) as Hrun2.
  { cbn [run step]. rewrite Hj. cbn [cards].
    by rewrite list_lookup_alter_ne, Hi. }
  split.
  - rewrite Hrun1, Hrun2. by rewrite list_alter_alter_ne.
  - eexists. split; [exact Hrun1 |]. cbn [cards]. split_and!.
    + by rewrite list_lookup_alter_ne, list_lookup_alter_eq, Hi.
    + by rewrite list_lookup_alter_eq, list_lookup_alter_ne, Hj.
    + intros k Hki Hkj. by rewrite !list_lookup_alter_ne.
Qed.

(** ** Category colours *)

Example hue_example : hueForString "Basic" = 182 ∧ hueForString "" = 0.
Proof. by vm_compute. Qed.

Example gradient_example :
  categoryGradient "Basic"
  = "linear-gradient(90deg, hsl(182, 75%, 45%), hsl(222, 65%, 55%))".
Proof. by vm_compute. Qed.

Lemma hueFrom_range (s : string) (h : Z) :
  0 ≤ h < 360 → 0 ≤ hueFrom h s < 360.
Proof.
  revert h. induction s as [|c s IH]; intros h Hh; [done |].
  simpl. apply IH. apply Z.mod_pos_bound. lia.
Qed.

Lemma hueFrom_app (a b : string) (h : Z) :
  hueFrom h (a +:+ b) = hueFrom (hueFrom h a) b.
Proof.
  revert h. induction a as [|c a IH]; intros h; [done |].
  rewrite append_cons. simpl. apply IH.
Qed.

(** X14.  [hueForString] returns a hue from 0 up to 359, and it hashes
    from left to right: the hue of [a] followed by [b] is the loop run on
    [b] from the hue of [a], so two names of equal hue keep equal hues
    when the same text is appended. *)
Theorem hue_in_range (a b : string) :
  0 ≤ hueForString a < 360
  ∧ hueForString (a +:+ b) = hueFrom (hueForString a) b
  ∧ (hueForString a = hueForString b →
     ∀ s, hueForString (a +:+ s) = hueForString (b +:+ s)).
Proof.
  unfold hueForString. split; [| split].
  - by apply hueFrom_range.
  - apply hueFrom_app.
  - intros H s. by rewrite !hueFrom_app, H.
Qed.

Lemma firstHue_gradientOf_all :
  Forall (λ h, firstHue (gradientOf h) = h) (seqZ 0 360).
Proof. apply (bool_decide_unpack _). by vm_compute. Qed.

Lemma firstHue_gradientOf (h : Z) :
  0 ≤ h < 360 → firstHue (gradientOf h) = h.
Proof.
  intros Hh. apply (proj1 (Forall_forall _ _) firstHue_gradientOf_all).
  apply elem_of_seqZ. lia.
Qed.

Lemma gradientOf_inj (h k : Z) :
  0 ≤ h < 360 → 0 ≤ k < 360 → gradientOf h = gradientOf k → h = k.
Proof.
  intros Hh Hk Heq.
  by rewrite <- (firstHue_gradientOf h), <- (firstHue_gradientOf k), Heq.
Qed.

(** X15.  Two names get the same gradient exactly when [hueForString]
    gives them the same hue; the second colour stop is 40 degrees further
    round the wheel than the first, so never the same hue. *)
Theorem gradient_iff_hue (a b : string) :
  (categoryGradient a = categoryGradient b ↔ hueForString a = hueForString b)
  ∧ ∃ h2, 0 ≤ h2 < 360 ∧ h2 ≠ hueForString a
          ∧ (h2 - hueForString a) mod 360 = 40
          ∧ categoryGradient a =
              "linear-gradient(90deg, hsl(" +:+ pretty (hueForString a)
              +:+ ", 75%, 45%), hsl(" +:+ pretty h2 +:+ ", 65%, 55%))".
Proof.
  pose proof (hueFrom_range a 0 ltac:(lia)) as Ha.
  pose proof (hueFrom_range b 0 ltac:(lia)) as Hb.
  fold (hueForString a) in Ha. fold (hueForString b) in Hb. split.
  - unfold categoryGradient. split; [by apply gradientOf_inj | by intros ->].
  - exists ((hueForString a + 40) mod 360). split; [| split; [| split]].
    + apply Z.mod_pos_bound. lia.
    + intros H. 
      destruct (decide (hueForString a + 40 < 360)).
      * rewrite Z.mod_small in H by lia. lia.
      * replace (hueForString a + 40) with ((hueForString a - 320) + 1 * 360) in H by lia.
        rewrite Z.mod_add, Z.mod_small in H by lia. lia.
    + destruct (decide (hueForString a + 40 < 360)).
      * rewrite (Z.mod_small (hueForString a + 40)) by lia.
        replace (hueForString a + 40 - hueForString a) with 40 by lia. done.
      * replace (hueForString a + 40) with ((hueForString a - 320) + 1 * 360) at 1 by lia.
        rewrite Z.mod_add, (Z.mod_small (hueForString a - 320)) by lia.
        replace (hueForString a - 320 - hueForString a) with (40 + (-1) * 360) by lia.
        by rewrite Z.mod_add.
    + unfold categoryGradient, gradientOf. cbv zeta.
      rewrite !append_assoc. reflexivity.
Qed.

(** ** The search box and the reset button *)

Lemma toggleNode_renderFrom (l : list Topic) (seen : gset string) :
  Forall (λ m, toggleNode (toggleNode m) = m) (renderFrom seen l).
Proof.
  revert seen. induction l as [|t l IH]; intros seen; [constructor |].
  cbn [renderFrom]. destruct (group t); [case_bool_decide |];
    repeat (constructor; [reflexivity |]); apply IH.
Qed.

Lemma toggleNode_refresh (topics : list Topic) (f : string) :
  Forall (λ m, toggleNode (toggleNode m) = m) (refresh topics f).
Proof.
  unfold refresh. rewrite buildCards_renderFrom. apply toggleNode_renderFrom.
Qed.

Lemma asRendered_refl (l : list Node) : Forall2 asRendered l l.
Proof. induction l; constructor; [by left | done]. Qed.

Lemma asRendered_alter (l k : list Node) (i : nat) :
  Forall (λ m, toggleNode (toggleNode m) = m) k →
  Forall2 asRendered l k → Forall2 asRendered (alter toggleNode i l) k.
Proof.
  intros Hk H. revert i. induction H as [|n m l k Hnm H IH]; intros i; [done |].
  apply Forall_cons in Hk as [Hm Hk]. destruct i as [|i]; simpl.
  - constructor; [| done]. destruct Hnm as [-> | ->]; [by right | left].
    exact Hm.
  - constructor; [done | by apply IH].
Qed.

Lemma cardsOf_header (h : string) (l : list Node) :
  cardsOf (SectionHeader h :: l) = cardsOf l.
Proof. reflexivity. Qed.

Lemma cardsOf_card (c : Card) (l : list Node) :
  cardsOf (CommandCard c :: l) = c :: cardsOf l.
Proof. reflexivity. Qed.

Lemma bound_toggleExample (c : Card) : bound (toggleExample c) = bound c.
Proof.
  unfold toggleExample. by destruct (String.eqb (exampleDisplay c) "none").
Qed.

Lemma asRendered_cards (l k : list Node) :
  Forall2 asRendered l k →
  bound <$> cardsOf l = bound <$> cardsOf k ∧ headers l = headers k.
Proof.
  induction 1 as [|n m l k Hnm H [IHc IHh]]; [done |].
  destruct Hnm as [-> | ->]; destruct m as [h|c]; cbn [toggleNode];
    rewrite ?cardsOf_header, ?cardsOf_card, ?headers_header, ?headers_card,
      ?fmap_cons, ?bound_toggleExample, IHc, IHh; done.
Qed.

Lemma session_asRendered (topics : list Topic) (gs : list Gesture)
    (v v' : View) :
  Forall2 asRendered (container v) (refresh topics (search v)) →
  session topics v gs = Some v' →
  Forall2 asRendered (container v') (refresh topics (search v')).
Proof.
  revert v. induction gs as [|g gs IH]; intros v Hv Hs; simpl in Hs.
  - by simplify_eq.
  - destruct (handle topics v g) as [w|] eqn:Hw; [| done].
    apply (IH w); [| done]. destruct g as [s| |i]; simpl in Hw.
    + simplify_eq. apply asRendered_refl.
    + simplify_eq. apply asRendered_refl.
    + destruct (container v !! i) as [[h|c]|]; simplify_eq. simpl.
      apply asRendered_alter; [apply toggleNode_refresh | done].
Qed.

(** X16.  After any typing, resetting and toggling, every child of [#cards]
    is the child that [refresh] renders at that place for what the search
    box holds, or that very child with its example shown; so the cards
    are those of the filtered Topics, in order, under the same headers. *)
Theorem view_follows_search (topics : list Topic) (gs : list Gesture)
    (v : View) :
  session topics (loaded topics) gs = Some v →
  Forall2 (λ n m, n = m ∨ n = toggleNode m)
    (container v) (refresh topics (search v))
  ∧ bound <$> cardsOf (container v) = filtered topics (search v)
  ∧ headers (container v) = headers (refresh topics (search v)).
Proof.
  intros Hs.
  assert (Forall2 asRendered (container v) (refresh topics (search v))) as Hv.
  { eapply session_asRendered; [| exact Hs]. apply asRendered_refl. }
  destruct (asRendered_cards _ _ Hv) as [Hc Hh].
  split_and!; [exact Hv | | done].
  rewrite Hc. unfold refresh.
  rewrite cardsOf_buildCards, <- list_fmap_compose. apply list_fmap_id.
Qed.

(** ** Instances of the further properties *)

(** Typing [State L] after [state] only takes entries away. *)
Lemma state_l_narrows_state :
  filtered TOPICS "State L" `sublist_of` filtered TOPICS "state".
Proof.
  apply (longer_filter_narrows TOPICS "state" "State L").
  exists "", " l". reflexivity.
Defined.

(** Padding and capitals do not change what [Init] finds. *)
Lemma padded_init_filter :
  filtered TOPICS ("  " +:+ "Init" +:+ nl) = filtered TOPICS "Init"
  ∧ filtered TOPICS (toLowerCase "Init") = filtered TOPICS "Init".
Proof.
  destruct (filter_ignores_case_and_padding TOPICS "  " "Init" nl)
    as (Hpad & Hcase & _).
  - reflexivity.
  - reflexivity.
  - split; assumption.
Defined.

(** The header of State in the rendering of [scattered]. *)
Lemma state_header_then_card :
  ∃ t g, buildCards scattered !! 3%nat = Some (CommandCard (card t))
         ∧ t ∈ scattered ∧ group t = Some g ∧ "# State" = pillText g.
Proof.
  apply (header_then_card scattered 2 "# State").
  vm_compute. reflexivity.
Defined.

(** The card of [single] has a copy button, and a click on it is taken. *)
Lemma single_has_copy_button :
  is_Some (step fresh (CopyClick 1)).
Proof.
  destruct (copy_button_iff_snippet single "" None [] fresh 1
              (card (default (bare "" "" None) (head single))))
    as [_ Henabled].
  - reflexivity.
  - vm_compute. reflexivity.
  - apply Henabled. reflexivity.
Defined.


(** The labels on [overlapped]. *)
Lemma overlapped_label_vocabulary :
  (∀ i c, cards overlapped !! i = Some (CommandCard c) →
          copyText c = None ∨ copyText c = Some "Copy"
          ∨ copyText c = Some "Copied" ∨ copyText c = Some "Copy failed")
  ∧ Forall (λ tm, label tm = "Copy" ∨ label tm = "Copied"
                  ∨ label tm = "Copy failed") (timers overlapped).
Proof.
  apply (copy_label_vocabulary single "" None
           [CopyClick 1; CopyClick 1; WriteSettled 0 true;
            WriteSettled 0 true; Elapse 1200] overlapped).
  vm_compute. reflexivity.
Defined.

(** The acknowledgement pending on [copied] is gone 1200 ms later. *)
Lemma copied_acknowledgement_expires :
  timers copied ≠ []
  ∧ ∃ p', step copied (Elapse 1200) = Some p' ∧ timers p' = [].
Proof.
  destruct (acknowledgements_expire single "" None
              [CopyClick 1; WriteSettled 0 true] copied)
    as (_ & p' & Hstep & Hnone & _).
  - vm_compute. reflexivity.
  - split; [discriminate |]. exists p'. split; assumption.
Defined.

(** Two overlapping copies on the card of [single]. *)
Lemma single_overlapping_copies :
  ∃ p', run fresh [CopyClick 1; CopyClick 1; WriteSettled 0 true;
                   WriteSettled 0 true; Elapse 1200] = Some p'
        ∧ copyLabel p' 1 = Some "Copied".
Proof.
  destruct (overlapping_copies_stick fresh 1
              (card (default (bare "" "" None) (head single)))
              ("terraform init" +:+ nl +:+ "terraform init -upgrade") "Copy")
    as (p' & Hrun & Hlabel & _).
  - vm_compute. reflexivity.
  - vm_compute. reflexivity.
  - reflexivity.
  - exists p'. split; assumption.
Defined.

(** Showing and hiding the example on [copied], whose button reads
    [Copied]. *)
Lemma copied_toggle_round_trip :
  run copied [ToggleClick 1; ToggleClick 1] = Some copied.
Proof.
  destruct (toggle_twice_anywhere single "" None
              [CopyClick 1; WriteSettled 0 true] copied 1
              (default (card (bare "" "" None))
                 (head (cardsOf (cards copied)))))
    as [Htwice _].
  - vm_compute. reflexivity.
  - vm_compute. reflexivity.
  - exact Htwice.
Defined.

(** The toggles of the first and the second card of [scattered]. *)
Lemma scattered_toggles_commute :
  run (rendered scattered "" None) [ToggleClick 1; ToggleClick 3]
  = run (rendered scattered "" None) [ToggleClick 3; ToggleClick 1].
Proof.
  destruct (toggles_commute (rendered scattered "" None) 1 3
              (card (bare "init" "Basic" None))
              (card (bare "state_list" "State" None)))
    as [Hcomm _].
  - discriminate.
  - vm_compute. reflexivity.
  - vm_compute. reflexivity.
  - exact Hcomm.
Defined.

(** Searching [init] on [single] and opening the example of its card. *)
Lemma single_search_session :
  ∃ v, session single (loaded single) [Typed "init"; Toggle 1] = Some v
       ∧ search v = "init"
       ∧ Forall2 (λ n m, n = m ∨ n = toggleNode m)
           (container v) (refresh single "init")
       ∧ container v ≠ refresh single "init".
Proof.
  destruct (view_follows_search single [Typed "init"; Toggle 1]
              (default (loaded single)
                 (session single (loaded single) [Typed "init"; Toggle 1])))
    as (Hshown & _ & _).
  - vm_compute. reflexivity.
  - eexists. split; [vm_compute; reflexivity |].
    split; [reflexivity |]. split; [exact Hshown |].
    vm_compute. discriminate.
Defined.

(** ** The label a copy goes back to *)




